(** * The change-stream partition traversal engine of [changestreams/reader.go]

    A shallow embedding of the reader: the partition registry
    ([Reader.states] with [markStateReading], [markStateFinished] and
    [canReadChild]), the partition task [startRead], and the entry point
    [Read], together with the [errgroup.Group] that joins the goroutines.

    Goroutines are modelled by an interleaving semantics.  Every goroutine
    is a small program counter ([task]); one [step] runs one goroutine up to
    its next access to shared state (a mutex section of the registry, a call
    of [group.Go], one turn of the row iterator with its sink call, or the
    [Done] of the goroutine wrapper).  What the outer world decides (the rows
    a stream yields, the clock, the scheduler) enters through the [label] of
    a step, so the semantics is an executable function. *)

From stdpp Require Import base strings list gmap fin_maps.
From Stdlib Require Import ZArith Lia.

Local Open Scope Z_scope.
Local Open Scope string_scope.

(** ** Basic types *)

(** Go's [error]: a non-nil error is its message; [nil] is [None] of
    [option error]. *)
Definition error := string.

(** A fallible result, Go's [(T, error)] pair. *)
Inductive result (A : Type) : Type :=
| Ok (a : A)
| Err (e : error).
Arguments Ok {A} a.
Arguments Err {A} e.

(** [time.Time], as nanoseconds since the zero instant (January 1, year 1,
    00:00:00 UTC), so that [IsZero] is a comparison with [0]. *)
Definition Time := Z.
Definition IsZero (t : Time) : bool := (t =? 0)%Z.

(** [time.Duration], an int64 count of nanoseconds. *)
Definition Duration := Z.
Definition Millisecond : Duration := 1000000.
Definition Second : Duration := 1000 * Millisecond.

(** [spanner.NullJSON]: the JSON text and the validity flag. *)
Record NullJSON := { Value : string; Valid : bool }.

(** ** Record payloads *)

(** The slices of pointers of the source are lists of values: the decoders
    are taken to yield no nil element. *)

Record ColumnType := {
  ct_Name : string;
  ct_Type : NullJSON;
  ct_IsPrimaryKey : bool;
  ct_OrdinalPosition : Z
}.

Record Mod := {
  Keys : NullJSON;
  NewValues : NullJSON;
  OldValues : NullJSON
}.

Record DataChangeRecord := {
  CommitTimestamp : Time;
  dc_RecordSequence : string;
  ServerTransactionID : string;
  IsLastRecordInTransactionInPartition : bool;
  TableName : string;
  ColumnTypes : list ColumnType;
  Mods : list Mod;
  ModType : string;
  ValueCaptureType : string;
  NumberOfRecordsInTransaction : Z;
  NumberOfPartitionsInTransaction : Z;
  TransactionTag : string;
  IsSystemTransaction : bool
}.

Record HeartbeatRecord := { Timestamp : Time }.

Record ChildPartition := {
  Token : string;
  ParentPartitionTokens : list string
}.

Record ChildPartitionsRecord := {
  StartTimestamp : Time;
  RecordSequence : string;
  ChildPartitions : list ChildPartition
}.

Record ChangeRecord := {
  DataChangeRecords : list DataChangeRecord;
  HeartbeatRecords : list HeartbeatRecord;
  ChildPartitionsRecords : list ChildPartitionsRecord
}.

Record ReadResult := {
  PartitionToken : string;
  ChangeRecords : list ChangeRecord
}.

(** The interim struct of the PostgreSQL dialect; a nil pointer is [None]. *)
Record changeRecordPostgres := {
  pg_DataChangeRecord : option DataChangeRecord;
  pg_HeartbeatRecord : option HeartbeatRecord;
  pg_ChildPartitionsRecord : option ChildPartitionsRecord
}.

(** ** Partition states and the registry *)

Inductive partitionState :=
| partitionStateUnknown
| partitionStateReading
| partitionStateFinished.

Global Instance partitionState_eq_dec : EqDecision partitionState.
Proof. solve_decision. Defined.

(** Go's [r.states[k]]: the zero value [partitionStateUnknown] for a key
    without entry. *)
Definition stateOf (states : gmap string partitionState) (k : string)
  : partitionState :=
  default partitionStateUnknown (states !! k).

(** [markStateReading], the body of the mutex section: the new map and the
    returned flag. *)
Definition markStateReading (states : gmap string partitionState)
    (partitionToken : string) : gmap string partitionState * bool :=
  match states !! partitionToken with
  | Some _ => (states, false)
  | None => (<[partitionToken := partitionStateReading]> states, true)
  end.

(** [markStateFinished]. *)
Definition markStateFinished (states : gmap string partitionState)
    (partitionToken : string) : gmap string partitionState :=
  <[partitionToken := partitionStateFinished]> states.

(** The loop of [canReadChild] over the parent tokens. *)
Fixpoint allFinished (states : gmap string partitionState)
    (parents : list string) : bool :=
  match parents with
  | [] => true
  | parent :: rest =>
      if decide (stateOf states parent = partitionStateFinished)
      then allFinished states rest
      else false
  end.

Definition canReadChild (states : gmap string partitionState)
    (partition : ChildPartition) : bool :=
  allFinished states (ParentPartitionTokens partition).

(** ** Dialect, statements *)

(** Modelled from the spec: the type [dialect] and its constants are
    declared outside [reader.go]; the spec describes them as a small closed
    set of strategies chosen at construction, with an error for a dialect
    outside the set.  [dialectOther] stands for any value that is neither
    constant; its argument is what [%s] prints for it. *)
Inductive dialect :=
| dialectGoogleSQL
| dialectPostgreSQL
| dialectOther (name : string).

(** Modelled from the spec: what [%s] prints for a dialect; the names of the
    two constants are not used by any path of [reader.go]. *)
Definition dialectString (d : dialect) : string :=
  match d with
  | dialectGoogleSQL => "GOOGLE_STANDARD_SQL"
  | dialectPostgreSQL => "POSTGRESQL"
  | dialectOther name => name
  end.

Definition errUnexpectedDialect (d : dialect) : error :=
  "unexpected dialect: " ++ dialectString d.

Definition errAlreadyRead : error := "reader has already been read".

(** A value of the [Params] map of a [spanner.Statement]. *)
Inductive param :=
| PNil
| PTime (t : Time)
| PString (s : string)
| PDuration (d : Duration).

Record Statement := {
  SQL : string;
  Params : gmap string param
}.

(** ** errgroup.Group *)

(** The group of [golang.org/x/sync/errgroup]: the counter of its
    [sync.WaitGroup], the error kept by [errOnce], and whether the derived
    context has been cancelled. *)
Record Group := {
  wg : Z;
  gerr : option error;
  cancelled : bool
}.

(** [errgroup.WithContext]. *)
Definition newGroup : Group :=
  {| wg := 0; gerr := None; cancelled := false |}.

(** The front half of [Group.Go]: [g.wg.Add(1)]; the goroutine itself is
    added to the pool by the caller of this function. *)
Definition groupAdd (g : Group) : Group :=
  {| wg := wg g + 1; gerr := gerr g; cancelled := cancelled g |}.

(** The back half of [Group.Go], run when the function of the goroutine
    has returned [ret]: the first non-nil error is kept and cancels the
    context, then [g.wg.Done()]. *)
Definition groupDone (g : Group) (ret : option error) : Group :=
  match ret, gerr g with
  | Some e, None => {| wg := wg g - 1; gerr := Some e; cancelled := true |}
  | _, _ => {| wg := wg g - 1; gerr := gerr g; cancelled := cancelled g |}
  end.

(** ** Reader *)

(** The [Reader] struct.  The client is the outer world (see [input]); the
    mutex is the atomicity of a [step].  [group] is a pointer in the source:
    [None] is nil, and since the pointer is assigned at most once, the one
    group it points to is kept in place. *)
Record Reader := {
  streamID : string;
  startTimestamp : Time;
  endTimestamp : Time;
  heartbeatInterval : Duration;
  rdialect : dialect;
  states : gmap string partitionState;
  group : option Group
}.

Definition setStates (r : Reader) (s : gmap string partitionState) : Reader :=
  {| streamID := streamID r; startTimestamp := startTimestamp r;
     endTimestamp := endTimestamp r; heartbeatInterval := heartbeatInterval r;
     rdialect := rdialect r; states := s; group := group r |}.

Definition setGroup (r : Reader) (g : option Group) : Reader :=
  {| streamID := streamID r; startTimestamp := startTimestamp r;
     endTimestamp := endTimestamp r; heartbeatInterval := heartbeatInterval r;
     rdialect := rdialect r; states := states r; group := g |}.

(** The fields of [Config] that reach the [Reader]. *)
Record Config := {
  cfg_StartTimestamp : Time;
  cfg_EndTimestamp : Time;
  cfg_HeartbeatInterval : Duration
}.

(** [NewReaderWithConfig]; [client] and [detected] are the outcomes of
    [spanner.NewClientWithConfig] and of [detectDialect]. *)
Definition NewReaderWithConfig (client : result unit) (detected : result dialect)
    (stream : string) (config : Config) : result Reader :=
  match client with
  | Err e => Err e
  | Ok _ =>
      match detected with
      | Err e => Err ("failed to detect dialect: " ++ e)
      | Ok d =>
          let hb := cfg_HeartbeatInterval config in
          let hb := if (hb =? 0)%Z then 10 * Second else hb in
          Ok {| streamID := stream;
                startTimestamp := cfg_StartTimestamp config;
                endTimestamp := cfg_EndTimestamp config;
                heartbeatInterval := hb;
                rdialect := d;
                states := ∅;
                group := None |}
      end
  end.

(** The statement [startRead] builds; [None] is the [default] branch of the
    switch. *)
Definition buildStatement (r : Reader) (partitionToken : string)
    (start : Time) : option Statement :=
  let nilIf (b : bool) (k : string) (m : gmap string param) :=
    if b then <[k := PNil]> m else m in
  match rdialect r with
  | dialectGoogleSQL =>
      let params : gmap string param :=
        <["start_timestamp" := PTime start]>
        (<["end_timestamp" := PTime (endTimestamp r)]>
        (<["partition_token" := PString partitionToken]>
        (<["heartbeat_millis_second" :=
             PDuration (Z.quot (heartbeatInterval r) Millisecond)]> ∅))) in
      let params := nilIf (IsZero (endTimestamp r)) "end_timestamp" params in
      let params :=
        nilIf (bool_decide (partitionToken = "")) "partition_token" params in
      Some {| SQL := "SELECT ChangeRecord FROM READ_" ++ streamID r ++
                     "(@start_timestamp, @end_timestamp, @partition_token, @heartbeat_millis_second)";
              Params := params |}
  | dialectPostgreSQL =>
      let params : gmap string param :=
        <["p1" := PTime start]>
        (<["p2" := PTime (endTimestamp r)]>
        (<["p3" := PString partitionToken]>
        (<["p4" := PDuration (Z.quot (heartbeatInterval r) Millisecond)]> ∅))) in
      let params := nilIf (IsZero (endTimestamp r)) "p2" params in
      let params := nilIf (bool_decide (partitionToken = "")) "p3" params in
      Some {| SQL := "SELECT * FROM spanner.read_json_" ++ streamID r ++
                     "($1, $2, $3, $4, null)";
              Params := params |}
  | dialectOther _ => None
  end.

(** ** The engine *)

Local Open Scope list_scope.

(** The outer world of the engine, as an interface: the rows of the Spanner
    client with their decoders, the JSON library, and the caller's sink (the
    argument [f] of [Read]), which may keep a state of its own between
    calls. *)
Class Collaborators := {
  Row : Type;
  rowToStructLenient : Row -> result (list ChangeRecord);
  rowColumn0 : Row -> result NullJSON;
  nullJSONMarshal : NullJSON -> result string;
  jsonUnmarshal : string -> result changeRecordPostgres;
  SinkSt : Type;
  sink : SinkSt -> ReadResult -> SinkSt * option error
}.

Section Engine.

Context {E : Collaborators}.

(** [decodePostgresRow]. *)
Definition decodePostgresRow (row : Row) : result ChangeRecord :=
  match rowColumn0 row with
  | Err e => Err e
  | Ok col =>
      match nullJSONMarshal col with
      | Err e => Err e
      | Ok jsonBytes =>
          match jsonUnmarshal jsonBytes with
          | Err e => Err e
          | Ok changeRecordPG =>
              Ok {| DataChangeRecords :=
                      match pg_DataChangeRecord changeRecordPG with
                      | Some d => [d] | None => [] end;
                    HeartbeatRecords :=
                      match pg_HeartbeatRecord changeRecordPG with
                      | Some h => [h] | None => [] end;
                    ChildPartitionsRecords :=
                      match pg_ChildPartitionsRecord changeRecordPG with
                      | Some c => [c] | None => [] end |}
          end
      end
  end.

(** The decoding switch at the head of the row callback of [startRead]. *)
Definition decodeRow (d : dialect) (partitionToken : string) (row : Row)
  : result ReadResult :=
  match d with
  | dialectGoogleSQL =>
      match rowToStructLenient row with
      | Err e => Err e
      | Ok crs =>
          Ok {| PartitionToken := partitionToken; ChangeRecords := crs |}
      end
  | dialectPostgreSQL =>
      match decodePostgresRow row with
      | Err e => Err e
      | Ok changeRecord =>
          Ok {| PartitionToken := partitionToken;
                ChangeRecords := [changeRecord] |}
      end
  | dialectOther _ => Err (errUnexpectedDialect d)
  end.

(** The loop of the row callback that gathers the announced children. *)
Definition appendChildren (acc : list ChildPartitionsRecord)
    (crs : list ChangeRecord) : list ChildPartitionsRecord :=
  fold_left
    (fun acc changeRecord =>
       if (0 <? length (ChildPartitionsRecords changeRecord))%nat
       then acc ++ ChildPartitionsRecords changeRecord
       else acc)
    crs acc.

(** The pairs [(childStartTimestamp, childPartition)] in the order in
    which the nested loops at the end of [startRead] visit them. *)
Definition childrenOf (recs : list ChildPartitionsRecord)
  : list (Time * ChildPartition) :=
  flat_map
    (fun rec => map (fun c => (StartTimestamp rec, c)) (ChildPartitions rec))
    recs.

(** *** Goroutines *)

(** The program counter of a goroutine started by [group.Go]. *)
Inductive task :=
| TRoot
    (* the closure of [Read], not yet run *)
| TStart (partitionToken : string) (start : Time)
    (* at the entry of [startRead] *)
| TStream (partitionToken : string) (acc : list ChildPartitionsRecord)
    (* inside [Do], waiting for the next row *)
| TFinish (partitionToken : string) (acc : list ChildPartitionsRecord)
    (* [Do] has returned nil *)
| TLoop (partitionToken : string) (todo : list (Time * ChildPartition))
    (* in the loops over the children, before [canReadChild] *)
| TGo (partitionToken : string) (start : Time) (child : ChildPartition)
      (todo : list (Time * ChildPartition))
    (* [canReadChild] was true, before [r.group.Go] *)
| TReturn (ret : option error)
    (* the function has returned, before the wrapper's [Done] *)
| TExited.

(** A call of [Read] by the user of the reader. *)
Inductive caller :=
| CEnter
| CGo
| CWait
| CReturned (ret : option error).

(** What the outer world hands to a step of a goroutine. *)
Inductive input :=
| INone
| INow (now : Time)
| IRow (row : Row)
| IDone
| IErr (e : error).

(** The observable actions, written to the trace in the order they
    happen.  [i] is the goroutine (its index in the pool), [c] the call of
    [Read]. *)
Inductive event :=
| EvClaim (i : nat) (partitionToken : string) (ok : bool)
| EvQuery (i : nat) (stmt : Statement)
| EvRow (i : nat) (row : Row)
| EvSink (i : nat) (row : Row) (res : ReadResult) (ret : option error)
| EvFinished (i : nat) (partitionToken : string)
| EvCanRead (i : nat) (child : ChildPartition) (ok : bool)
| EvGo (i : nat) (j : nat) (child : ChildPartition) (start : Time)
| EvGoRoot (c : nat) (j : nat)
| EvDone (i : nat) (ret : option error)
| EvReadReturn (c : nat) (ret : option error).

(** The effect of one step of a goroutine. *)
Record outcome := {
  o_reader : Reader;
  o_sink : SinkSt;
  o_task : task;
  o_spawn : list task;
  o_events : list event
}.

(** One step of goroutine [i]; [n] is the size of the pool, the index a
    goroutine started by this step gets.  The [fmt.Printf] of the gathered
    children writes to standard output only and is left out.  [None]: the step is not possible
    (the input is not the one this point of the program takes, the
    goroutine has exited, or a nil group would be dereferenced, which
    [group_of_goroutine] below rules out). *)
Definition stepTask (r : Reader) (s : SinkSt) (i n : nat) (t : task)
    (inp : input) : option outcome :=
  match t, inp with
  | TRoot, INow now =>
      let start := startTimestamp r in
      let start := if IsZero start then now else start in
      Some {| o_reader := r; o_sink := s; o_task := TStart "" start;
              o_spawn := []; o_events := [] |}
  | TStart partitionToken start, INone =>
      match markStateReading (states r) partitionToken with
      | (_, false) =>
          Some {| o_reader := r; o_sink := s; o_task := TReturn None;
                  o_spawn := [];
                  o_events := [EvClaim i partitionToken false] |}
      | (states', true) =>
          let r' := setStates r states' in
          match buildStatement r' partitionToken start with
          | None =>
              Some {| o_reader := r'; o_sink := s;
                      o_task :=
                        TReturn (Some (errUnexpectedDialect (rdialect r)));
                      o_spawn := [];
                      o_events := [EvClaim i partitionToken true] |}
          | Some stmt =>
              Some {| o_reader := r'; o_sink := s;
                      o_task := TStream partitionToken [];
                      o_spawn := [];
                      o_events :=
                        [EvClaim i partitionToken true; EvQuery i stmt] |}
          end
      end
  | TStream partitionToken acc, IRow row =>
      match decodeRow (rdialect r) partitionToken row with
      | Err e =>
          Some {| o_reader := r; o_sink := s; o_task := TReturn (Some e);
                  o_spawn := []; o_events := [EvRow i row] |}
      | Ok readResult =>
          let acc' := appendChildren acc (ChangeRecords readResult) in
          match sink s readResult with
          | (s', Some e) =>
              Some {| o_reader := r; o_sink := s';
                      o_task := TReturn (Some e); o_spawn := [];
                      o_events :=
                        [EvRow i row; EvSink i row readResult (Some e)] |}
          | (s', None) =>
              Some {| o_reader := r; o_sink := s';
                      o_task := TStream partitionToken acc'; o_spawn := [];
                      o_events :=
                        [EvRow i row; EvSink i row readResult None] |}
          end
      end
  | TStream partitionToken acc, IDone =>
      Some {| o_reader := r; o_sink := s;
              o_task := TFinish partitionToken acc;
              o_spawn := []; o_events := [] |}
  | TStream partitionToken acc, IErr e =>
      Some {| o_reader := r; o_sink := s; o_task := TReturn (Some e);
              o_spawn := []; o_events := [] |}
  | TFinish partitionToken acc, INone =>
      Some {| o_reader :=
                setStates r (markStateFinished (states r) partitionToken);
              o_sink := s;
              o_task := TLoop partitionToken (childrenOf acc);
              o_spawn := [];
              o_events := [EvFinished i partitionToken] |}
  | TLoop partitionToken [], INone =>
      Some {| o_reader := r; o_sink := s; o_task := TReturn None;
              o_spawn := []; o_events := [] |}
  | TLoop partitionToken ((start, child) :: todo), INone =>
      if canReadChild (states r) child
      then Some {| o_reader := r; o_sink := s;
                   o_task := TGo partitionToken start child todo;
                   o_spawn := [];
                   o_events := [EvCanRead i child true] |}
      else Some {| o_reader := r; o_sink := s;
                   o_task := TLoop partitionToken todo;
                   o_spawn := [];
                   o_events := [EvCanRead i child false] |}
  | TGo partitionToken start child todo, INone =>
      match group r with
      | None => None
      | Some g =>
          Some {| o_reader := setGroup r (Some (groupAdd g)); o_sink := s;
                  o_task := TLoop partitionToken todo;
                  o_spawn := [TStart (Token child) start];
                  o_events := [EvGo i n child start] |}
      end
  | TReturn ret, INone =>
      match group r with
      | None => None
      | Some g =>
          Some {| o_reader := setGroup r (Some (groupDone g ret));
                  o_sink := s; o_task := TExited; o_spawn := [];
                  o_events := [EvDone i ret] |}
      end
  | _, _ => None
  end.

(** One step of call [c] of [Read]: the new reader, the new point of the
    call, the goroutine it starts, and its events.  [CWait] cannot step
    while the counter of the group is not zero. *)
Definition stepCaller (r : Reader) (c n : nat) (cl : caller)
  : option (Reader * caller * list task * list event) :=
  match cl with
  | CEnter =>
      match group r with
      | Some _ =>
          Some (r, CReturned (Some errAlreadyRead), [],
                [EvReadReturn c (Some errAlreadyRead)])
      | None => Some (setGroup r (Some newGroup), CGo, [], [])
      end
  | CGo =>
      match group r with
      | None => None
      | Some g =>
          Some (setGroup r (Some (groupAdd g)), CWait, [TRoot],
                [EvGoRoot c n])
      end
  | CWait =>
      match group r with
      | None => None
      | Some g =>
          if (wg g =? 0)%Z
          then Some (setGroup r
                       (Some {| wg := wg g; gerr := gerr g;
                                cancelled := true |}),
                     CReturned (gerr g), [], [EvReadReturn c (gerr g)])
          else None
      end
  | CReturned _ => None
  end.

(** *** The whole system *)

Record World := {
  reader : Reader;
  tasks : list task;
  callers : list caller;
  sinkState : SinkSt;
  trace : list event
}.

(** The choice of the scheduler and of the outer world for one step. *)
Inductive label :=
| LCall
    (* the user calls [Read] once more *)
| LCaller (c : nat)
    (* call [c] of [Read] takes its next step *)
| LTask (i : nat) (inp : input).
    (* goroutine [i] takes its next step *)

Definition step (l : label) (w : World) : option World :=
  match l with
  | LCall =>
      Some {| reader := reader w; tasks := tasks w;
              callers := callers w ++ [CEnter];
              sinkState := sinkState w; trace := trace w |}
  | LCaller c =>
      match callers w !! c with
      | None => None
      | Some cl =>
          match stepCaller (reader w) c (length (tasks w)) cl with
          | None => None
          | Some (r', cl', spawn, evs) =>
              Some {| reader := r'; tasks := tasks w ++ spawn;
                      callers := <[c := cl']> (callers w);
                      sinkState := sinkState w;
                      trace := trace w ++ evs |}
          end
      end
  | LTask i inp =>
      match tasks w !! i with
      | None => None
      | Some t =>
          match stepTask (reader w) (sinkState w) i (length (tasks w)) t inp with
          | None => None
          | Some o =>
              Some {| reader := o_reader o;
                      tasks := <[i := o_task o]> (tasks w) ++ o_spawn o;
                      callers := callers w;
                      sinkState := o_sink o;
                      trace := trace w ++ o_events o |}
          end
      end
  end.

(** A run from a world along a list of labels. *)
Fixpoint exec (ls : list label) (w : World) : option World :=
  match ls with
  | [] => Some w
  | l :: ls' =>
      match step l w with
      | None => None
      | Some w' => exec ls' w'
      end
  end.

(** The world around a reader that [NewReaderWithConfig] has just made. *)
Definition initWorld (r : Reader) (s : SinkSt) : World :=
  {| reader := r; tasks := []; callers := []; sinkState := s; trace := [] |}.

Definition fresh (r : Reader) : Prop :=
  states r = ∅ /\ group r = None.

(** The worlds a fresh reader can get into. *)
Inductive reachable : World -> Prop :=
| reach_init r s : fresh r -> reachable (initWorld r s)
| reach_step l w w' : reachable w -> step l w = Some w' -> reachable w'.

End Engine.

(** ** A concrete outer world, for examples *)

Module Demo.

(** A row is what its lenient decoding gives. *)
Inductive row :=
| RowOk (crs : list ChangeRecord)
| RowBad (e : error).

Definition lenient (r : row) : result (list ChangeRecord) :=
  match r with
  | RowOk crs => Ok crs
  | RowBad e => Err e
  end.

(** The sink counts the results it has seen and rejects those of the
    partition ["x"]. *)
Definition countingSink (n : nat) (res : ReadResult) : nat * option error :=
  (S n, if bool_decide (PartitionToken res = "x")
        then Some "rejected" else None).

Definition world : Collaborators :=
  {| Row := row;
     rowToStructLenient := lenient;
     rowColumn0 := fun _ => Err "no column";
     nullJSONMarshal := fun _ => Err "no json";
     jsonUnmarshal := fun _ => Err "no json";
     SinkSt := nat;
     sink := countingSink |}.

Definition rd : Reader :=
  {| streamID := "Stream"; startTimestamp := 0; endTimestamp := 0;
     heartbeatInterval := 10 * Second; rdialect := dialectGoogleSQL;
     states := ∅; group := None |}.

(** A child of the root, and a partition with both [a] and [b] as
    parents. *)
Definition childA : ChildPartition :=
  {| Token := "a"; ParentPartitionTokens := [""] |}.
Definition childB : ChildPartition :=
  {| Token := "b"; ParentPartitionTokens := [""] |}.
Definition childG : ChildPartition :=
  {| Token := "g"; ParentPartitionTokens := ["a"; "b"] |}.

Definition announce (ts : Time) (cs : list ChildPartition) : row :=
  RowOk [ {| DataChangeRecords := []; HeartbeatRecords := [];
             ChildPartitionsRecords :=
               [ {| StartTimestamp := ts; RecordSequence := "0";
                    ChildPartitions := cs |} ] |} ].

Definition heartbeat (ts : Time) : row :=
  RowOk [ {| DataChangeRecords := [];
             HeartbeatRecords := [ {| Timestamp := ts |} ];
             ChildPartitionsRecords := [] |} ].

Definition w0 : @World world := @initWorld world rd 0%nat.

Definition row_in (r : row) : @input world := @IRow world r.

(** [Read] is called; the root reads a heartbeat and the announcement of
    [a] and [b], finishes and starts both; the root has not yet returned. *)
Definition rootRun : list (@label world) :=
  [ LCall; LCaller 0; LCaller 0;
    LTask 0 (INow 5);
    LTask 0 INone;
    LTask 0 (row_in (heartbeat 6));
    LTask 0 (row_in (announce 7 [childA; childB]));
    LTask 0 IDone;
    LTask 0 INone;
    LTask 0 INone; LTask 0 INone;
    LTask 0 INone; LTask 0 INone ].

(** Then [a] and [b] are claimed, both announce [g]; [a] finishes first
    and may not start [g], [b] finishes second and is about to. *)
Definition diamondRun : list (@label world) :=
  rootRun ++
  [ LTask 0 INone; LTask 0 INone;
    LTask 1 INone; LTask 2 INone;
    LTask 1 (row_in (announce 9 [childG]));
    LTask 2 (row_in (announce 9 [childG]));
    LTask 1 IDone; LTask 1 INone; LTask 1 INone;
    LTask 2 IDone; LTask 2 INone; LTask 2 INone ].

(** The root's stream breaks after the announcement. *)
Definition brokenRun : list (@label world) :=
  [ LCall; LCaller 0; LCaller 0;
    LTask 0 (INow 5);
    LTask 0 INone;
    LTask 0 (row_in (announce 7 [childA; childB]));
    LTask 0 (IErr "connection lost") ].

(** Both [a] and [b] finish before either looks at [g]: both call
    [group.Go] for [g]; the first goroutine for [g] claims it, the second
    is still at the entry of [startRead]. *)
Definition raceRun : list (@label world) :=
  rootRun ++
  [ LTask 1 INone; LTask 2 INone;
    LTask 1 (row_in (announce 9 [childG]));
    LTask 2 (row_in (announce 9 [childG]));
    LTask 1 IDone; LTask 2 IDone;
    LTask 1 INone; LTask 2 INone;
    LTask 1 INone; LTask 2 INone;
    LTask 1 INone; LTask 2 INone;
    LTask 3 INone ].

(** The root has read a heartbeat and its stream has ended; it has not
    yet marked itself finished. *)
Definition drainedRun : list (@label world) :=
  [ LCall; LCaller 0; LCaller 0;
    LTask 0 (INow 5);
    LTask 0 INone;
    LTask 0 (row_in (heartbeat 6));
    LTask 0 IDone ].

(** The root is inside [Do], after the announcement of [a] and [b]. *)
Definition streamingRun : list (@label world) :=
  [ LCall; LCaller 0; LCaller 0;
    LTask 0 (INow 5);
    LTask 0 INone;
    LTask 0 (row_in (announce 7 [childA; childB])) ].

(** The world at the end of a run; [w0] if the run is not possible. *)
Definition after (ls : list (@label world)) : @World world :=
  default w0 (exec ls w0).

(** A child that names no parent. *)
Definition orphan : ChildPartition :=
  {| Token := "o"; ParentPartitionTokens := [] |}.


(** What the root has gathered in [streamingRun]. *)
Definition announced : list ChildPartitionsRecord :=
  [ {| StartTimestamp := 7; RecordSequence := "0";
       ChildPartitions := [childA; childB] |} ].


End Demo.

(** ** Reading the trace *)

Section Projections.

Context {E : Collaborators}.

(** The goroutines that have not yet signalled [Done]: the outstanding
    work of the group. *)
Definition isLive (t : task) : bool :=
  match t with
  | TExited => false
  | _ => true
  end.

(** How many goroutines of the pool satisfy [p]. *)
Fixpoint countIf (p : task -> bool) (ts : list task) : Z :=
  match ts with
  | [] => 0
  | t :: ts' => (if p t then 1 else 0) + countIf p ts'
  end.

Definition liveCount (ts : list task) : Z := countIf isLive ts.

(** The goroutine that holds the claim of a token and has neither marked
    it finished nor failed. *)
Definition owns (t : task) (partitionToken : string) : bool :=
  match t with
  | TStream tok _ | TFinish tok _ => bool_decide (tok = partitionToken)
  | _ => false
  end.

Definition ownerCount (partitionToken : string) (ts : list task) : Z :=
  countIf (fun t => owns t partitionToken) ts.

(** The points of [startRead] that lie behind [markStateFinished]. *)
Definition pastFinish (t : task) : Prop :=
  match t with
  | TLoop _ _ | TGo _ _ _ _ | TReturn None | TExited => True
  | _ => False
  end.

(** The points before [markStateReading]: the closure of [Read] and the
    entry of [startRead]. *)
Definition beforeRows (t : task) : Prop :=
  match t with
  | TRoot | TStart _ _ => True
  | _ => False
  end.

(** The goroutine an event belongs to. *)
Definition actor (ev : event) : option nat :=
  match ev with
  | EvClaim i _ _ | EvQuery i _ | EvRow i _ | EvSink i _ _ _
  | EvFinished i _ | EvCanRead i _ _ | EvGo i _ _ _ | EvDone i _ => Some i
  | EvGoRoot _ _ | EvReadReturn _ _ => None
  end.

(** The rows the stream of goroutine [i] has produced, in order. *)
Definition rowsOf (i : nat) (tr : list event) : list Row :=
  omap (fun ev => match ev with
                  | EvRow j row => if decide (j = i) then Some row else None
                  | _ => None
                  end) tr.

(** A call of the sink: the row it was decoded from, the result handed
    over, and what the sink returned. *)
Record sinkCall := {
  c_row : Row;
  c_res : ReadResult;
  c_ret : option error
}.

(** The calls of the sink by goroutine [i], in order. *)
Definition sinkCallsOf (i : nat) (tr : list event) : list sinkCall :=
  omap (fun ev => match ev with
                  | EvSink j row res ret =>
                      if decide (j = i)
                      then Some {| c_row := row; c_res := res; c_ret := ret |}
                      else None
                  | _ => None
                  end) tr.

(** The children for which [canReadChild] answered [true] to goroutine
    [i], and those it has handed to [group.Go], in order. *)
Definition eligibleOf (i : nat) (tr : list event) : list ChildPartition :=
  omap (fun ev => match ev with
                  | EvCanRead j child true =>
                      if decide (j = i) then Some child else None
                  | _ => None
                  end) tr.

Definition spawnedOf (i : nat) (tr : list event) : list ChildPartition :=
  omap (fun ev => match ev with
                  | EvGo j _ child _ =>
                      if decide (j = i) then Some child else None
                  | _ => None
                  end) tr.

(** The child a goroutine is about to hand to [group.Go]. *)
Definition pendingGo (o : option task) : list ChildPartition :=
  match o with
  | Some (TGo _ _ child _) => [child]
  | _ => []
  end.

(** The successful claims of a token, in order: the goroutines that got
    [true] from [markStateReading]. *)
Definition claimsOf (partitionToken : string) (tr : list event) : list nat :=
  omap (fun ev => match ev with
                  | EvClaim i tok true =>
                      if decide (tok = partitionToken) then Some i else None
                  | _ => None
                  end) tr.

(** Registry states only move forward, one stage at a time. *)
Inductive forward : partitionState -> partitionState -> Prop :=
| forward_same s : forward s s
| forward_claim : forward partitionStateUnknown partitionStateReading
| forward_finish : forward partitionStateReading partitionStateFinished.

(** The row stream, the decoder or the sink returns the error [e] on the
    next turn of [Do], for a goroutine that reads [partitionToken]. *)
Definition failsWith (r : Reader) (s : SinkSt) (partitionToken : string)
    (inp : input) (e : error) : Prop :=
  match inp with
  | IErr e' => e' = e
  | IRow row =>
      match decodeRow (rdialect r) partitionToken row with
      | Err e' => e' = e
      | Ok res => (sink s res).2 = Some e
      end
  | _ => False
  end.


(** The errors the goroutines have returned, in the order of their
    [Done]. *)
Definition errorsOf (tr : list event) : list error :=
  omap (fun ev => match ev with
                  | EvDone _ (Some e) => Some e
                  | _ => None
                  end) tr.


End Projections.

Local Open Scope nat_scope.

(** ** What the reachable worlds satisfy *)

Section Invariants.

Context {E : Collaborators}.

Implicit Types (w : World) (r : Reader) (t : task) (cl : caller).

(** Before the first call of [Read] has set the group there is no
    goroutine and no call beyond its entry; afterwards the counter of the
    group is the number of goroutines that have not signalled [Done]. *)
Definition groupInv w : Prop :=
  match group (reader w) with
  | None =>
      tasks w = [] /\ forall c cl, callers w !! c = Some cl -> cl = CEnter
  | Some g => wg g = liveCount (tasks w)
  end.

(** At most one goroutine holds a token, and only while the registry has
    it as [Reading]. *)
Definition ownInv w : Prop :=
  forall tok,
    (ownerCount tok (tasks w) <=
     if decide (states (reader w) !! tok = Some partitionStateReading)
     then 1 else 0)%Z.

(** A goroutine between a true [canReadChild] and its [group.Go] still
    finds every parent of the child finished. *)
Definition goInv w : Prop :=
  forall i tok start child todo,
    tasks w !! i = Some (TGo tok start child todo) ->
    Forall (fun p => states (reader w) !! p = Some partitionStateFinished)
           (ParentPartitionTokens child).

(** Where a goroutine can be, given an event it has left in the trace. *)
Definition allows (ev : event) (t : task) : Prop :=
  match ev with
  | EvDone _ _ => t = TExited
  | EvFinished _ _ | EvCanRead _ _ _ | EvGo _ _ _ _ => pastFinish t
  | EvClaim _ _ _ | EvQuery _ _ | EvRow _ _ | EvSink _ _ _ _ =>
      ~ beforeRows t
  | EvGoRoot _ _ | EvReadReturn _ _ => True
  end.

Definition traceInv w : Prop :=
  forall ev i, ev ∈ trace w -> actor ev = Some i ->
    exists t, tasks w !! i = Some t /\ allows ev t.

(** A token is claimed at most once, and only a claimed token has an
    entry. *)
Definition claimsInv w : Prop :=
  forall tok,
    length (claimsOf tok (trace w)) <=
    match states (reader w) !! tok with Some _ => 1 | None => 0 end.

(** The holder of a token has claimed it, and a finished token has been
    marked so by some goroutine. *)
Definition histInv w : Prop :=
  (forall i t tok, tasks w !! i = Some t -> owns t tok = true ->
                   EvClaim i tok true ∈ trace w) /\
  (forall tok, states (reader w) !! tok = Some partitionStateFinished ->
               exists i, EvFinished i tok ∈ trace w).

(** Every child that [canReadChild] has let through has been handed to
    [group.Go], but for the one the goroutine is about to hand over. *)
Definition spawnsInv w : Prop :=
  forall i,
    eligibleOf i (trace w) =
    spawnedOf i (trace w) ++ pendingGo (tasks w !! i).

(** Goroutine [i] has returned the error [e] from [startRead]. *)
Definition failedWith w (i : nat) (e : error) : Prop :=
  tasks w !! i = Some (TReturn (Some e)) \/
  (tasks w !! i = Some TExited /\ EvDone i (Some e) ∈ trace w).

(** What holds of the rows and sink calls of goroutine [i]: the sink has
    been called once for each row the stream has produced, in order,
    except for a last row that could not be decoded, which made the
    goroutine fail; each call was given
    the decoding of its row; only the last call can have returned an
    error; and while the goroutine is inside [Do] or has left it cleanly,
    no row is without call and no call has returned an error. *)
Definition rowsInv w : Prop :=
  forall i,
    let rows := rowsOf i (trace w) in
    let calls := sinkCallsOf i (trace w) in
    (rows = map c_row calls \/
     exists row e, rows = map c_row calls ++ [row] /\ failedWith w i e) /\
    (forall cs c, calls = cs ++ [c] -> Forall (fun c => c_ret c = None) cs) /\
    Forall (fun c => decodeRow (rdialect (reader w))
                       (PartitionToken (c_res c)) (c_row c) = Ok (c_res c))
           calls /\
    match tasks w !! i with
    | Some (TStream tok _) | Some (TFinish tok _) =>
        rows = map c_row calls /\
        Forall (fun c => c_ret c = None /\ PartitionToken (c_res c) = tok)
               calls
    | _ => True
    end.

(** The events of the part of [startRead] behind [markStateFinished]. *)
Definition isLate (ev : event) : Prop :=
  match ev with
  | EvFinished _ _ | EvCanRead _ _ _ | EvGo _ _ _ _ => True
  | _ => False
  end.

(** Every goroutine of the pool has been started by a [group.Go]: the one
    of [Read] for the root closure, or the one of a parent for a child. *)
Definition poolInv w : Prop :=
  forall j, j < length (tasks w) ->
    (exists c, EvGoRoot c j ∈ trace w) \/
    (exists i child start, EvGo i j child start ∈ trace w).

(** The group keeps the first error a goroutine has returned. *)
Definition groupErrInv w : Prop :=
  forall g, group (reader w) = Some g -> gerr g = head (errorsOf (trace w)).

End Invariants.

(** ** Properties *)


Section Basics.

Context {E : Collaborators}.

Implicit Types (w : World) (r : Reader) (t : task) (cl : caller).
Implicit Types (m : gmap string partitionState) (tr : list event).

(** *** The registry *)

Lemma markStateReading_absent m tok :
  m !! tok = None ->
  markStateReading m tok = (<[tok := partitionStateReading]> m, true).
Proof. intros H. unfold markStateReading. by rewrite H. Qed.

Lemma markStateReading_present m tok st :
  m !! tok = Some st -> markStateReading m tok = (m, false).
Proof. intros H. unfold markStateReading. by rewrite H. Qed.

Lemma stateOf_finished m tok :
  stateOf m tok = partitionStateFinished <->
  m !! tok = Some partitionStateFinished.
Proof.
  unfold stateOf. destruct (m !! tok) as [st|]; simpl; split;
    intros H; congruence.
Qed.

Lemma allFinished_Forall m parents :
  allFinished m parents = true <->
  Forall (fun p => m !! p = Some partitionStateFinished) parents.
Proof.
  induction parents as [|p ps IH]; simpl.
  - split; [constructor | done].
  - destruct (decide (stateOf m p = partitionStateFinished)) as [Hp|Hp].
    + rewrite IH. split.
      * intros Hps. constructor; [by apply stateOf_finished | done].
      * by inversion 1.
    + split; [done |]. inversion 1; subst.
      exfalso. by apply Hp, stateOf_finished.
Qed.

(** *** Lists of goroutines *)

Lemma countIf_nonneg p ts : (0 <= countIf p ts)%Z.
Proof. induction ts as [|t ts IH]; simpl; [lia|]. destruct (p t); lia. Qed.

Lemma countIf_app p ts1 ts2 :
  countIf p (ts1 ++ ts2) = (countIf p ts1 + countIf p ts2)%Z.
Proof. induction ts1 as [|t ts1 IH]; simpl; lia. Qed.

Lemma countIf_insert p ts i t t' :
  ts !! i = Some t ->
  countIf p (<[i := t']> ts) =
  (countIf p ts - (if p t then 1 else 0) + (if p t' then 1 else 0))%Z.
Proof.
  revert i. induction ts as [|a ts IH]; intros [|i] H; simplify_eq/=.
  - lia.
  - rewrite (IH i H). lia.
Qed.

Lemma countIf_pos p ts i t :
  ts !! i = Some t -> p t = true -> (0 < countIf p ts)%Z.
Proof.
  revert i. induction ts as [|a ts IH]; intros [|i] H Hl; simplify_eq/=.
  - rewrite Hl. pose proof (countIf_nonneg p ts). lia.
  - specialize (IH i H Hl). destruct (p a); lia.
Qed.

(** Where a goroutine is after a step of goroutine [i] that starts the
    goroutines [spawn]. *)
Lemma lookup_pool ts i t' spawn j t :
  i < length ts ->
  (<[i := t']> ts ++ spawn) !! j = Some t ->
  (j = i /\ t = t') \/
  (j <> i /\ ts !! j = Some t) \/
  (length ts <= j /\ spawn !! (j - length ts) = Some t).
Proof.
  intros Hi H. apply lookup_app_Some in H as [H|[Hlen H]].
  - destruct (decide (j = i)) as [->|Hne].
    + rewrite list_lookup_insert_eq in H by done. left. by simplify_eq.
    + rewrite list_lookup_insert_ne in H by done. right. by left.
  - rewrite length_insert in Hlen, H. right. right. done.
Qed.

(** *** Runs *)

Lemma reachable_exec ls w w' :
  reachable w -> exec ls w = Some w' -> reachable w'.
Proof.
  revert w. induction ls as [|l ls IH]; intros w Hw H; simpl in H.
  - by simplify_eq.
  - destruct (step l w) as [w1|] eqn:Hs; [|done].
    eapply IH; [|done]. by eapply reach_step.
Qed.

(** Induction over the reachable worlds, with the step split by who
    moves. *)
Lemma reachable_cases (P : World -> Prop) :
  (forall r s, fresh r -> P (initWorld r s)) ->
  (forall w, reachable w -> P w ->
     P {| reader := reader w; tasks := tasks w;
          callers := callers w ++ [CEnter];
          sinkState := sinkState w; trace := trace w |}) ->
  (forall w c cl r' cl' spawn evs, reachable w -> P w ->
     callers w !! c = Some cl ->
     stepCaller (reader w) c (length (tasks w)) cl
       = Some (r', cl', spawn, evs) ->
     P {| reader := r'; tasks := tasks w ++ spawn;
          callers := <[c := cl']> (callers w);
          sinkState := sinkState w; trace := trace w ++ evs |}) ->
  (forall w i t inp o, reachable w -> P w ->
     tasks w !! i = Some t ->
     stepTask (reader w) (sinkState w) i (length (tasks w)) t inp = Some o ->
     P {| reader := o_reader o;
          tasks := <[i := o_task o]> (tasks w) ++ o_spawn o;
          callers := callers w; sinkState := o_sink o;
          trace := trace w ++ o_events o |}) ->
  forall w, reachable w -> P w.
Proof.
  intros Hinit Hcall Hcaller Htask w Hw.
  induction Hw as [r s Hr|l w w' Hw IH Hs]; [by apply Hinit|].
  destruct l as [|c|i inp]; simpl in Hs.
  - simplify_eq. by apply Hcall.
  - destruct (callers w !! c) as [cl|] eqn:Hc; [|done].
    destruct (stepCaller _ _ _ _) as [[[[r' cl'] spawn] evs]|] eqn:Hsc;
      [|done].
    simplify_eq. by eapply Hcaller.
  - destruct (tasks w !! i) as [t|] eqn:Ht; [|done].
    destruct (stepTask _ _ _ _ _ _) as [o|] eqn:Hst; [|done].
    simplify_eq. by eapply Htask.
Qed.

End Basics.

(** ** Proof tools *)

(** Splits every [match] of a hypothesis on its scrutinee. *)
Ltac split_matches Hs :=
  repeat match type of Hs with
         | context [match ?x with _ => _ end] => destruct x eqn:?
         end.

(** The cases of one step of a goroutine. *)
Ltac task_cases Hs :=
  match type of Hs with
  | stepTask _ _ _ _ ?t ?inp = Some _ =>
      try (is_var t;
           destruct t as [|?tok ?start|?tok ?acc|?tok ?acc
                          |?tok [|[?start ?child] ?todo]
                          |?tok ?start ?child ?todo|?ret|]);
      try (is_var inp; destruct inp as [|?now|?row| |?e]);
      simpl in Hs; try discriminate Hs
  end;
  try match type of Hs with
      | context [markStateReading ?m ?k] =>
          unfold markStateReading in Hs; destruct (m !! k) eqn:?; simpl in Hs
      end;
  split_matches Hs; try discriminate Hs;
  injection Hs as <-; simplify_eq/=; rewrite ?app_nil_r.

(** The cases of one step of a call of [Read]. *)
Ltac caller_cases Hs :=
  match type of Hs with
  | stepCaller _ _ _ ?cl = Some _ =>
      destruct cl as [| | |?ret]; simpl in Hs; try discriminate Hs
  end;
  split_matches Hs; try discriminate Hs;
  simplify_eq/=; rewrite ?app_nil_r.

(** Induction over the reachable worlds. *)
Ltac reach_induction w :=
  revert w;
  match goal with
  | |- forall w', reachable w' -> @?P w' => apply (reachable_cases P)
  end;
  [ intros ?r ?s [Hfresh_states Hfresh_group]
  | intros w Hw IH
  | intros w ?c ?cl ?r' ?cl' ?spawn ?evs Hw IH Hc Hs
  | intros w ?i ?t ?inp ?o Hw IH Ht Hs ].


(** An event of a trace that has grown by [evs] is an old one or one of
    [evs]. *)
Lemma snoc_split {A} (tr evs pre post : list A) (ev : A) :
  tr ++ evs = pre ++ ev :: post ->
  (exists post', tr = pre ++ ev :: post' /\ post = post' ++ evs) \/
  (exists pre', pre = tr ++ pre' /\ evs = pre' ++ ev :: post).
Proof.
  intros H. apply app_eq_inv in H as [(k & Htr & Hk)|(k & Hpre & Hk)].
  - destruct k as [|a k]; simplify_eq/=.
    + right. exists []. by rewrite !app_nil_r.
    + left. by exists k.
  - right. by exists k.
Qed.

(** Membership in a trace that ends in the events of a step. *)
Ltac in_trace := rewrite ?elem_of_app, ?elem_of_cons; auto 10.

(** Finds [ev] among the at most two events [evs] of a step. *)
Ltac new_event H :=
  match type of H with
  | _ = ?pre' ++ _ :: _ =>
      destruct pre' as [|? [|? [|? ?]]]; simplify_eq/=
  end.


(** The cases of one step of the system. *)
Ltac step_cases Hs :=
  match type of Hs with
  | step ?l ?w = Some _ =>
      let c := fresh "c" in
      let i := fresh "i" in
      let inp := fresh "inp" in
      destruct l as [|c|i inp]; simpl in Hs;
      [ injection Hs as <-
      | let Hc := fresh "Hc" in
        let Hsc := fresh "Hsc" in
        destruct (callers w !! c) as [?cl|] eqn:Hc; [|discriminate Hs];
        destruct (stepCaller _ _ _ _) as [[[[?r' ?cl'] ?spawn] ?evs]|] eqn:Hsc;
        [|discriminate Hs];
        injection Hs as <-
      | let Ht := fresh "Ht" in
        let Hst := fresh "Hst" in
        destruct (tasks w !! i) as [?t|] eqn:Ht; [|discriminate Hs];
        destruct (stepTask _ _ _ _ _ _) as [?o|] eqn:Hst; [|discriminate Hs];
        injection Hs as <- ]
  end.

(** Where goroutine [j] of the pool after a step comes from: it is the one
    that moved, one that stood still, or one just started. *)
Ltac pool_cases Hj Ht :=
  apply lookup_pool in Hj as [[-> Hj]|[[? Hj]|[? Hj]]];
  [ | | try (by rewrite lookup_nil in Hj);
        try (apply list_lookup_singleton_Some in Hj as [? Hj])
  | by eapply lookup_lt_Some, Ht ];
  simplify_eq/=.


(** ** Invariants of the reachable worlds *)

Section Properties.

Context {E : Collaborators}.

Implicit Types (w : World) (r : Reader) (t : task) (cl : caller).
Implicit Types (m : gmap string partitionState) (tr : list event).

(** *** The group and its counter *)

Lemma wg_groupAdd g : wg (groupAdd g) = (wg g + 1)%Z.
Proof. done. Qed.

Lemma wg_groupDone g ret : wg (groupDone g ret) = (wg g - 1)%Z.
Proof. unfold groupDone. by destruct ret, (gerr g). Qed.

Lemma group_inv w : reachable w -> groupInv w.
Proof.
  reach_induction w; unfold groupInv, liveCount in *; simpl in *.
  - rewrite Hfresh_group. split; [done|].
    intros c cl H. by rewrite lookup_nil in H.
  - destruct (group (reader w)) as [g|]; [done|].
    destruct IH as [Ht Hc]. split; [done|]. intros c cl H.
    apply lookup_app_Some in H as [H|[_ H]]; [by eapply Hc|].
    apply list_lookup_singleton_Some in H as [_ <-]. done.
  - caller_cases Hs;
      repeat match goal with
             | H : group (reader _) = _ |- _ => rewrite H in *; clear H
             end; simpl.
    + done.
    + destruct IH as [-> _]. done.
    + rewrite countIf_app. simpl. lia.
    + done.
  - destruct (group (reader w)) as [g|] eqn:Hg;
      [|destruct IH as [IH _]; rewrite IH in Ht; by rewrite lookup_nil in Ht].
    task_cases Hs; rewrite ?Hg; simpl.
    all: rewrite ?countIf_app, ?wg_groupDone.
    all: erewrite countIf_insert by done; simpl; lia.
Qed.

(** A goroutine never meets a nil group: [r.group.Go] and the wrapper's
    [Done] always find the group of the first call of [Read]. *)
Lemma group_of_goroutine w i t :
  reachable w -> tasks w !! i = Some t ->
  exists g, group (reader w) = Some g /\ wg g = liveCount (tasks w).
Proof.
  intros Hw Ht. pose proof (group_inv w Hw) as H. unfold groupInv in H.
  destruct (group (reader w)) as [g|]; [by exists g|].
  destruct H as [H _]. rewrite H in Ht. by rewrite lookup_nil in Ht.
Qed.

(** *** Ownership of a claimed token *)

Lemma own_inv w : reachable w -> ownInv w.
Proof.
  reach_induction w; unfold ownInv, ownerCount in *; simpl in *.
  - intros tok. rewrite Hfresh_states, lookup_empty. done.
  - done.
  - intros tok. specialize (IH tok).
    caller_cases Hs; rewrite ?countIf_app; simpl; lia.
  - intros tok'. specialize (IH tok').
    pose proof (countIf_nonneg (fun t => owns t tok') (tasks w)) as Hnn.
    task_cases Hs; rewrite ?countIf_app;
      erewrite countIf_insert by done; simpl;
      unfold markStateFinished;
      repeat case_bool_decide; repeat case_decide; simplify_map_eq; try lia.
Qed.


Lemma owner_reading w i t tok :
  reachable w -> tasks w !! i = Some t -> owns t tok = true ->
  states (reader w) !! tok = Some partitionStateReading.
Proof.
  intros Hw Ht Ho. pose proof (own_inv w Hw tok) as H.
  pose proof (countIf_pos (fun t => owns t tok) _ _ _ Ht Ho) as Hpos.
  unfold ownerCount in H.
  case_decide; [done|lia].
Qed.

(** *** The registry only moves forward *)

Lemma stepTask_keeps_finished r s i n t inp o p :
  stepTask r s i n t inp = Some o ->
  states r !! p = Some partitionStateFinished ->
  states (o_reader o) !! p = Some partitionStateFinished.
Proof.
  intros Hs Hp. task_cases Hs; try done.
  - destruct (decide (tok = p)) as [->|]; simplify_map_eq; done.
  - destruct (decide (tok = p)) as [->|]; simplify_map_eq; done.
  - unfold markStateFinished.
    destruct (decide (tok = p)) as [->|]; simplify_map_eq; done.
Qed.

Lemma stepCaller_states r c n cl r' cl' spawn evs :
  stepCaller r c n cl = Some (r', cl', spawn, evs) ->
  states r' = states r /\ rdialect r' = rdialect r /\
  startTimestamp r' = startTimestamp r.
Proof. intros Hs. caller_cases Hs; done. Qed.

Lemma step_keeps_finished l w w' p :
  step l w = Some w' ->
  states (reader w) !! p = Some partitionStateFinished ->
  states (reader w') !! p = Some partitionStateFinished.
Proof.
  intros Hs Hp. step_cases Hs; simpl.
  - done.
  - apply stepCaller_states in Hsc as [-> _]. done.
  - by eapply stepTask_keeps_finished.
Qed.

Lemma step_forward l w w' tok :
  reachable w -> step l w = Some w' ->
  forward (stateOf (states (reader w)) tok) (stateOf (states (reader w')) tok).
Proof.
  intros Hw Hs. step_cases Hs; simpl.
  - constructor.
  - apply stepCaller_states in Hsc as [-> _]. constructor.
  - pose proof (fun k H => owner_reading w i t k Hw Ht H) as Hown.
    task_cases Hst; try constructor; unfold stateOf, markStateFinished.
    + destruct (decide (tok0 = tok)) as [->|]; simplify_map_eq;
        constructor.
    + destruct (decide (tok0 = tok)) as [->|]; simplify_map_eq;
        constructor.
    + destruct (decide (tok0 = tok)) as [->|]; simplify_map_eq;
        [|constructor].
      rewrite (Hown tok); [constructor|]. simpl. by apply bool_decide_eq_true.
Qed.

(** *** The gate before [group.Go] *)

Lemma go_inv w : reachable w -> goInv w.
Proof.
  reach_induction w; unfold goInv in *; simpl in *.
  - intros i tok start child todo H. by rewrite lookup_nil in H.
  - done.
  - intros j tok start child todo Hj.
    apply stepCaller_states in Hs as Hst. destruct Hst as [-> _].
    apply lookup_app_Some in Hj as [Hj|[_ Hj]]; [by eapply IH|].
    caller_cases Hs; try by rewrite lookup_nil in Hj.
    by apply list_lookup_singleton_Some in Hj as [_ ?].
  - intros j tok' start' child' todo' Hj.
    assert (forall p, states (reader w) !! p = Some partitionStateFinished ->
                      states (o_reader o) !! p = Some partitionStateFinished)
      as Hkeep by (intros p; by eapply stepTask_keeps_finished).
    assert (forall k tk sk ck dk,
              tasks w !! k = Some (TGo tk sk ck dk) ->
              Forall (fun p => states (o_reader o) !! p
                               = Some partitionStateFinished)
                     (ParentPartitionTokens ck)) as IH'.
    { intros k tk sk ck dk Hk. eapply Forall_impl; [by eapply IH|].
      simpl. intros p. apply Hkeep. }
    clear IH Hkeep.
    task_cases Hs; pool_cases Hj Ht; try by eapply IH'.
    by apply allFinished_Forall.
Qed.


(** *** What the trace says about the goroutines *)

Lemma stepTask_allows r s i n t inp o ev :
  stepTask r s i n t inp = Some o -> allows ev t -> allows ev (o_task o).
Proof.
  intros Hs Hal. task_cases Hs; destruct ev; simpl in *;
    try done; try tauto.
Qed.

Lemma stepTask_events r s i n t inp o ev :
  stepTask r s i n t inp = Some o -> ev ∈ o_events o ->
  actor ev = Some i /\ allows ev (o_task o).
Proof.
  intros Hs Hev. task_cases Hs;
    repeat (apply elem_of_cons in Hev as [->|Hev]);
    try (by apply elem_of_nil in Hev); simpl; split; try done; tauto.
Qed.

Lemma stepCaller_events r c n cl r' cl' spawn evs ev :
  stepCaller r c n cl = Some (r', cl', spawn, evs) -> ev ∈ evs ->
  actor ev = None.
Proof.
  intros Hs Hev. caller_cases Hs;
    repeat (apply elem_of_cons in Hev as [->|Hev]);
    by try apply elem_of_nil in Hev.
Qed.

Lemma trace_inv w : reachable w -> traceInv w.
Proof.
  reach_induction w; unfold traceInv in *; simpl in *.
  - intros ev i H. by apply elem_of_nil in H.
  - done.
  - intros ev j Hev Hact. apply elem_of_app in Hev as [Hev|Hev].
    + destruct (IH ev j Hev Hact) as (t & Ht & Hal). exists t.
      split; [|done]. by apply lookup_app_l_Some.
    + erewrite stepCaller_events in Hact by done. done.
  - intros ev j Hev Hact. apply elem_of_app in Hev as [Hev|Hev].
    + destruct (IH ev j Hev Hact) as (tj & Htj & Hal).
      destruct (decide (j = i)) as [->|Hne].
      * exists (o_task o). split.
        -- apply lookup_app_l_Some, list_lookup_insert_eq.
           by eapply lookup_lt_Some.
        -- simplify_eq. by eapply stepTask_allows.
      * exists tj. split; [|done].
        apply lookup_app_l_Some. by rewrite list_lookup_insert_ne.
    + destruct (stepTask_events _ _ _ _ _ _ _ _ Hs Hev) as [Hi Hal].
      simplify_eq. exists (o_task o). split; [|done].
      apply lookup_app_l_Some, list_lookup_insert_eq.
      by eapply lookup_lt_Some.
Qed.

(** A goroutine that is not past its claim has left no event. *)
Lemma quiet_before_claim w i ev :
  reachable w ->
  match tasks w !! i with
  | Some t => beforeRows t
  | None => True
  end ->
  ev ∈ trace w -> actor ev <> Some i.
Proof.
  intros Hw Hi Hev Hact.
  destruct (trace_inv w Hw ev i Hev Hact) as (t & Ht & Hal).
  rewrite Ht in Hi. destruct ev; simplify_eq/=; try tauto;
    destruct t; simpl in *; tauto.
Qed.


(** *** Claims *)

Lemma claimsOf_app tok tr1 tr2 :
  claimsOf tok (tr1 ++ tr2) = claimsOf tok tr1 ++ claimsOf tok tr2.
Proof. apply omap_app. Qed.

Lemma elem_of_claimsOf tok tr i :
  i ∈ claimsOf tok tr <-> EvClaim i tok true ∈ tr.
Proof.
  unfold claimsOf. rewrite list_elem_of_omap. split.
  - intros (ev & Hev & H).
    destruct ev as [j tok' [|]| | | | | | | | |]; simplify_eq/=.
    case_decide; by simplify_eq.
  - intros H. exists (EvClaim i tok true). split; [done|]. simpl.
    by rewrite decide_True.
Qed.

Lemma claims_inv w : reachable w -> claimsInv w.
Proof.
  reach_induction w; unfold claimsInv in *; simpl in *.
  - intros tok. by rewrite Hfresh_states, lookup_empty.
  - done.
  - intros tok. specialize (IH tok). rewrite claimsOf_app, length_app.
    caller_cases Hs; simpl; lia.
  - intros tok'. specialize (IH tok'). rewrite claimsOf_app, length_app.
    task_cases Hs; simpl; unfold markStateFinished;
      repeat case_decide; simplify_map_eq; simpl; try lia.
    destruct (decide (tok = tok')) as [->|]; simplify_map_eq; [|lia].
    destruct (states (reader w) !! tok'); lia.
Qed.

Lemma claim_unique w tok i j :
  reachable w ->
  EvClaim i tok true ∈ trace w -> EvClaim j tok true ∈ trace w -> i = j.
Proof.
  intros Hw Hi Hj. pose proof (claims_inv w Hw tok) as Hlen.
  apply elem_of_claimsOf in Hi, Hj.
  destruct (claimsOf tok (trace w)) as [|a [|b l]].
  - by apply elem_of_nil in Hi.
  - apply list_elem_of_singleton in Hi, Hj. congruence.
  - simpl in Hlen. destruct (states (reader w) !! tok); lia.
Qed.


(** *** Who finished what *)

Lemma hist_inv w : reachable w -> histInv w.
Proof.
  reach_induction w; unfold histInv in *; simpl in *.
  - split.
    + intros i t tok H. by rewrite lookup_nil in H.
    + intros tok. by rewrite Hfresh_states, lookup_empty.
  - done.
  - destruct IH as [IHo IHf].
    apply stepCaller_states in Hs as Hst. destruct Hst as [-> _]. split.
    + intros j t tok Hj Ho. apply elem_of_app. left.
      apply lookup_app_Some in Hj as [Hj|[_ Hj]]; [by eapply IHo|].
      caller_cases Hs; try by rewrite lookup_nil in Hj.
      apply list_lookup_singleton_Some in Hj as [_ <-]. done.
    + intros tok Hf. destruct (IHf tok Hf) as [j Hj]. exists j.
      apply elem_of_app. by left.
  - destruct IH as [IHo IHf]. split.
    + intros j tj tok' Hj Ho. apply elem_of_app.
      task_cases Hs; pool_cases Hj Ht;
        try (left; by eapply IHo); try done.
      right. apply bool_decide_eq_true in Ho as ->. in_trace.
    + intros tok' Hf.
      task_cases Hs; unfold markStateFinished in *;
        try match type of Hf with
            | <[?k := _]> _ !! ?k' = _ =>
                destruct (decide (k = k')) as [->|]; simplify_map_eq
            end;
        try (destruct (IHf tok' Hf) as [k Hk]; exists k; in_trace).
      exists i. in_trace.
Qed.

(** [markStateFinished] is only reached by the goroutine that claimed the
    token. *)
Lemma finished_after_claim w pre post i tok :
  reachable w -> trace w = pre ++ EvFinished i tok :: post ->
  EvClaim i tok true ∈ pre.
Proof.
  intros Hw. revert pre post i tok. revert Hw.
  reach_induction w; simpl in *.
  - intros pre post i tok H. by destruct pre.
  - done.
  - intros pre post j tok H.
    caller_cases Hs;
      (apply snoc_split in H as [(post' & H & _)|(pre' & -> & H)];
       [by eapply IH|new_event H]).
  - intros pre post j tok' H.
    apply snoc_split in H as [(post' & H & _)|(pre' & -> & H)];
      [by eapply IH|].
    task_cases Hs; new_event H. rewrite app_nil_r.
    destruct (hist_inv w Hw) as [Ho _]. eapply Ho; [done|].
    simpl. by apply bool_decide_eq_true.
Qed.

(** *** Nothing after [Done] *)

Lemma stepTask_not_exited r s i n inp o :
  stepTask r s i n TExited inp = Some o -> False.
Proof. by destruct inp. Qed.

Lemma after_done w pre post i ret ev :
  reachable w -> trace w = pre ++ EvDone i ret :: post ->
  ev ∈ post -> actor ev <> Some i.
Proof.
  intros Hw. revert pre post i ret ev. revert Hw.
  reach_induction w; simpl in *.
  - intros pre post i ret ev H. by destruct pre.
  - done.
  - intros pre post j ret ev H Hev.
    pose proof (stepCaller_events _ _ _ _ _ _ _ _ ev Hs) as Hnone.
    caller_cases Hs;
      (apply snoc_split in H as [(post' & H & ->)|(pre' & -> & H)];
       [|new_event H]).
    all: apply elem_of_app in Hev as [Hev|Hev]; [by eapply IH|].
    all: by rewrite Hnone.
  - intros pre post j ret ev H Hev.
    apply snoc_split in H as [(post' & H & ->)|(pre' & -> & H)].
    + apply elem_of_app in Hev as [Hev|Hev]; [by eapply IH|].
      destruct (stepTask_events _ _ _ _ _ _ _ _ Hs Hev) as [-> _].
      intros [= ->].
      destruct (trace_inv w Hw (EvDone j ret) j) as (tj & Htj & Hal);
        [rewrite H; in_trace|done|].
      simpl in Hal. by simplify_eq.
    + task_cases Hs; new_event H; by apply elem_of_nil in Hev.
Qed.


(** *** Projections of a growing trace *)

Lemma rowsOf_app i tr1 tr2 :
  rowsOf i (tr1 ++ tr2) = rowsOf i tr1 ++ rowsOf i tr2.
Proof. apply omap_app. Qed.

Lemma sinkCallsOf_app i tr1 tr2 :
  sinkCallsOf i (tr1 ++ tr2) = sinkCallsOf i tr1 ++ sinkCallsOf i tr2.
Proof. apply omap_app. Qed.

Lemma eligibleOf_app i tr1 tr2 :
  eligibleOf i (tr1 ++ tr2) = eligibleOf i tr1 ++ eligibleOf i tr2.
Proof. apply omap_app. Qed.

Lemma spawnedOf_app i tr1 tr2 :
  spawnedOf i (tr1 ++ tr2) = spawnedOf i tr1 ++ spawnedOf i tr2.
Proof. apply omap_app. Qed.

Lemma omap_all_None {A B} (g : A -> option B) (l : list A) :
  (forall x, x ∈ l -> g x = None) -> omap g l = [].
Proof.
  induction l as [|x l IH]; intros H; [done|]. simpl.
  rewrite (H x) by left. apply IH. intros y Hy. apply H. by right.
Qed.

(** Events of other goroutines do not show in the projections of [i]. *)
Lemma proj_other i tr :
  (forall ev, ev ∈ tr -> actor ev <> Some i) ->
  rowsOf i tr = [] /\ sinkCallsOf i tr = [] /\
  eligibleOf i tr = [] /\ spawnedOf i tr = [].
Proof.
  intros H. repeat split; apply omap_all_None; intros ev Hev;
    specialize (H ev Hev);
    destruct ev as [| | | | |? ? [|]| | | |]; simpl in *;
    try done; (rewrite decide_False by congruence); done.
Qed.

Lemma stepTask_other r s k n t inp o i :
  stepTask r s k n t inp = Some o -> i <> k ->
  rowsOf i (o_events o) = [] /\ sinkCallsOf i (o_events o) = [] /\
  eligibleOf i (o_events o) = [] /\ spawnedOf i (o_events o) = [].
Proof.
  intros Hs Hne. apply proj_other. intros ev Hev.
  destruct (stepTask_events _ _ _ _ _ _ _ _ Hs Hev) as [-> _]. congruence.
Qed.

Lemma stepCaller_proj r c n cl r' cl' spawn evs i :
  stepCaller r c n cl = Some (r', cl', spawn, evs) ->
  rowsOf i evs = [] /\ sinkCallsOf i evs = [] /\
  eligibleOf i evs = [] /\ spawnedOf i evs = [].
Proof.
  intros Hs. apply proj_other. intros ev Hev.
  by erewrite stepCaller_events by done.
Qed.

(** Where goroutine [i] is after a step of another goroutine [k]: where it
    was, or it has just been started. *)
Lemma lookup_pool_ne ts k t' spawn i :
  i <> k ->
  (<[k := t']> ts ++ spawn) !! i = ts !! i \/
  (ts !! i = None /\
   exists t, t ∈ spawn /\ (<[k := t']> ts ++ spawn) !! i = Some t).
Proof.
  intros Hne. destruct (decide (i < length ts)) as [Hlt|Hge].
  - left. rewrite lookup_app_l by (by rewrite length_insert).
    by rewrite list_lookup_insert_ne.
  - destruct ((<[k := t']> ts ++ spawn) !! i) as [t|] eqn:Hi.
    + right. split; [apply lookup_ge_None; lia|]. exists t. split; [|done].
      apply lookup_app_Some in Hi as [Hi|[_ Hi]].
      * apply lookup_lt_Some in Hi. rewrite length_insert in Hi. lia.
      * by eapply list_elem_of_lookup_2.
    + left. symmetry. apply lookup_ge_None. lia.
Qed.

Lemma stepTask_spawn r s k n t inp o t' :
  stepTask r s k n t inp = Some o -> t' ∈ o_spawn o ->
  exists tok start, t' = TStart tok start.
Proof.
  intros Hs Hin. task_cases Hs; try by apply elem_of_nil in Hin.
  apply list_elem_of_singleton in Hin as ->. eauto.
Qed.

Lemma stepCaller_spawn r c n cl r' cl' spawn evs t' :
  stepCaller r c n cl = Some (r', cl', spawn, evs) -> t' ∈ spawn ->
  t' = TRoot.
Proof.
  intros Hs Hin. caller_cases Hs; try by apply elem_of_nil in Hin.
  by apply list_elem_of_singleton in Hin.
Qed.


(** *** Eligible children and their [group.Go] *)

Lemma pendingGo_other ts k t' spawn i :
  i <> k ->
  (forall t, t ∈ spawn -> pendingGo (Some t) = []) ->
  pendingGo ((<[k := t']> ts ++ spawn) !! i) = pendingGo (ts !! i).
Proof.
  intros Hne Hsp.
  destruct (lookup_pool_ne ts k t' spawn i Hne)
    as [->|(-> & t & Hin & ->)]; [done|].
  by rewrite Hsp.
Qed.

Lemma lookup_pool_eq ts i t t' spawn :
  ts !! i = Some t -> (<[i := t']> ts ++ spawn) !! i = Some t'.
Proof.
  intros Ht. apply lookup_app_l_Some, list_lookup_insert_eq.
  by eapply lookup_lt_Some.
Qed.

Lemma spawns_inv w : reachable w -> spawnsInv w.
Proof.
  reach_induction w; unfold spawnsInv in *; simpl in *.
  - done.
  - done.
  - intros i. rewrite eligibleOf_app, spawnedOf_app.
    destruct (stepCaller_proj _ _ _ _ _ _ _ _ i Hs) as (_ & _ & -> & ->).
    rewrite !app_nil_r, IH. f_equal.
    destruct (decide (i < length (tasks w))) as [Hlt|Hge].
    + by rewrite lookup_app_l.
    + rewrite (proj2 (lookup_ge_None (tasks w) i)) by lia.
      destruct ((tasks w ++ spawn) !! i) as [t|] eqn:Hi; [|done].
      apply lookup_app_Some in Hi as [Hi|[_ Hi]].
      * apply lookup_lt_Some in Hi. lia.
      * apply list_elem_of_lookup_2 in Hi.
        by rewrite (stepCaller_spawn _ _ _ _ _ _ _ _ _ Hs Hi).
  - intros j. rewrite eligibleOf_app, spawnedOf_app.
    destruct (decide (j = i)) as [->|Hne].
    + rewrite (lookup_pool_eq _ _ _ _ _ Ht). specialize (IH i).
      rewrite Ht in IH. rewrite IH. clear IH.
      unfold eligibleOf, spawnedOf.
      task_cases Hs; rewrite ?decide_True by done;
        rewrite ?app_nil_r; try done.
    + destruct (stepTask_other _ _ _ _ _ _ _ j Hs Hne)
        as (_ & _ & -> & ->).
      rewrite !app_nil_r, IH. f_equal. symmetry.
      apply pendingGo_other; [done|].
      intros t' Hin.
      by destruct (stepTask_spawn _ _ _ _ _ _ _ _ Hs Hin) as (? & ? & ->).
Qed.

Lemma failed_step l w w' i e :
  failedWith w i e -> step l w = Some w' -> failedWith w' i e.
Proof.
  intros Hf Hs. unfold failedWith in *. step_cases Hs; simpl.
  - done.
  - destruct Hf as [Hf|[Hf Hd]]; [left|right; split; [|in_trace]];
      by apply lookup_app_l_Some.
  - destruct (decide (i0 = i)) as [->|Hne].
    + rewrite (lookup_pool_eq _ _ _ _ _ Ht).
      destruct Hf as [Hf|[Hf Hd]]; simplify_eq.
      right. task_cases Hst; (split; [done|in_trace]).
    + destruct Hf as [Hf|[Hf Hd]]; [left|right; split; [|in_trace]].
      all: apply lookup_app_l_Some; by rewrite list_lookup_insert_ne.
Qed.

Lemma failed_exec ls w w' i e :
  failedWith w i e -> exec ls w = Some w' -> failedWith w' i e.
Proof.
  revert w. induction ls as [|l ls IH]; intros w Hf H; simpl in H.
  - by simplify_eq.
  - destruct (step l w) as [w1|] eqn:Hs; [|done].
    eapply IH; [|done]. by eapply failed_step.
Qed.

(** *** Rows and sink calls *)

Lemma decodeRow_token d tok row res :
  decodeRow d tok row = Ok res -> PartitionToken res = tok.
Proof.
  unfold decodeRow. intros H.
  destruct d; repeat case_match; by simplify_eq.
Qed.


Lemma stepTask_fixed r s i n t inp o :
  stepTask r s i n t inp = Some o ->
  rdialect (o_reader o) = rdialect r /\
  startTimestamp (o_reader o) = startTimestamp r.
Proof. intros Hs. task_cases Hs; done. Qed.

Lemma Forall_snoc_inv {A} (P : A -> Prop) (l cs : list A) (c c' : A) :
  Forall P l -> l ++ [c] = cs ++ [c'] -> Forall P cs.
Proof. intros Hl Heq. by apply app_inj_tail in Heq as [<- _]. Qed.

Lemma Forall_init {A} (P : A -> Prop) (l cs : list A) (c : A) :
  Forall P l -> l = cs ++ [c] -> Forall P cs.
Proof. intros Hl ->. by apply Forall_app in Hl as [? _]. Qed.

Lemma rows_inv w : reachable w -> rowsInv w.
Proof.
  reach_induction w; unfold rowsInv in *; cbv zeta in *; simpl in *.
  - intros i. repeat split; [by left| |done].
    intros cs c H. by destruct cs.
  - done.
  - intros i. rewrite rowsOf_app, sinkCallsOf_app.
    assert (forall e, failedWith w i e ->
              failedWith {| reader := r'; tasks := tasks w ++ spawn;
                            callers := <[c:=cl']> (callers w);
                            sinkState := sinkState w;
                            trace := trace w ++ evs |} i e) as Hfail.
    { intros e Hf. eapply (failed_step (LCaller c)); [done|].
      simpl. by rewrite Hc, Hs. }
    destruct (stepCaller_proj _ _ _ _ _ _ _ _ i Hs) as (-> & -> & _).
    destruct (stepCaller_states _ _ _ _ _ _ _ _ Hs) as (_ & -> & _).
    rewrite !app_nil_r. destruct (IH i) as (A & B & C & D).
    repeat split; try done.
    + destruct A as [A|(row & e & A & Hf)]; [by left|right].
      exists row, e. split; [done|]. by apply Hfail.
    + destruct (decide (i < length (tasks w))) as [Hlt|Hge].
      * by rewrite lookup_app_l.
      * destruct ((tasks w ++ spawn) !! i) as [t|] eqn:Hi; [|done].
        apply lookup_app_Some in Hi as [Hi|[_ Hi]].
        -- apply lookup_lt_Some in Hi. lia.
        -- apply list_elem_of_lookup_2 in Hi.
           by rewrite (stepCaller_spawn _ _ _ _ _ _ _ _ _ Hs Hi).
  - intros j. rewrite rowsOf_app, sinkCallsOf_app.
    assert (forall e, failedWith w j e ->
              failedWith {| reader := o_reader o;
                            tasks := <[i:=o_task o]> (tasks w) ++ o_spawn o;
                            callers := callers w; sinkState := o_sink o;
                            trace := trace w ++ o_events o |} j e) as Hfail.
    { intros e Hf. eapply (failed_step (LTask i inp)); [done|].
      simpl. by rewrite Ht, Hs. }
    destruct (stepTask_fixed _ _ _ _ _ _ _ Hs) as [-> _].
    destruct (IH j) as (A & B & C & D).
    destruct (decide (j = i)) as [->|Hne].
    + rewrite (lookup_pool_eq _ _ _ _ _ Ht). rewrite Ht in D.
      assert (beforeRows t -> rowsOf i (trace w) = [] /\
                              sinkCallsOf i (trace w) = []) as Hquiet.
      { intros Hb. destruct (proj_other i (trace w)) as (? & ? & _); [|done].
        intros ev Hev. eapply quiet_before_claim; [done| |done].
        by rewrite Ht. }
      clear IH.
      destruct A as [A|(row & e & A & Hf)].
      * clear Hfail. unfold failedWith, rowsOf, sinkCallsOf in *.
        task_cases Hs; rewrite ?decide_True by done; rewrite ?app_nil_r;
          try (repeat split; try done; by left).
        -- destruct Hquiet as [-> ->]; [done|]. repeat split; try done.
           ++ by left.
           ++ intros cs c H. by destruct cs.
        -- destruct D as [D1 D2]. repeat split.
           ++ left. by rewrite D1, map_app.
           ++ intros cs c Hcs. eapply Forall_snoc_inv; [|done].
              eapply Forall_impl; [exact D2|]. by intros ? [? _].
           ++ apply Forall_app. split; [done|]. constructor; [|done]. simpl.
              by erewrite decodeRow_token by done.
        -- destruct D as [D1 D2]. repeat split.
           ++ left. by rewrite D1, map_app.
           ++ intros cs c Hcs. eapply Forall_snoc_inv; [|done].
              eapply Forall_impl; [exact D2|]. by intros ? [? _].
           ++ apply Forall_app. split; [done|]. constructor; [|done]. simpl.
              by erewrite decodeRow_token by done.
           ++ by rewrite D1, map_app.
           ++ apply Forall_app. split; [done|]. constructor; [|done]. simpl.
              split; [done|]. by eapply decodeRow_token.
        -- destruct D as [D1 D2]. repeat split; try done.
           right. exists row, e. split; [by rewrite D1|]. left.
           apply list_lookup_insert_eq. by eapply lookup_lt_Some.
        -- destruct D as [D1 D2]. repeat split; try done. by left.
      * specialize (Hfail e Hf). clear Hquiet D.
        assert (rowsOf i (o_events o) = [] /\
                sinkCallsOf i (o_events o) = [] /\
                match o_task o with
                | TStream _ _ | TFinish _ _ => False
                | _ => True
                end) as (-> & -> & Hlate).
        { destruct Hf as [Hf|[Hf _]]; simplify_eq.
          unfold rowsOf, sinkCallsOf. task_cases Hs; done. }
        rewrite !app_nil_r. repeat split; try done.
        -- right. by exists row, e.
        -- by destruct (o_task o).
    + destruct (stepTask_other _ _ _ _ _ _ _ j Hs Hne) as (-> & -> & _).
      rewrite !app_nil_r. repeat split; try done.
      * destruct A as [A|(row & e & A & Hf)]; [by left|right].
        exists row, e. split; [done|]. by apply Hfail.
      * destruct (lookup_pool_ne (tasks w) i (o_task o) (o_spawn o) j Hne)
          as [->|(_ & t' & Hin & ->)]; [done|].
        by destruct (stepTask_spawn _ _ _ _ _ _ _ _ Hs Hin) as (? & ? & ->).
Qed.

(** [markStateFinished] of goroutine [i] comes after all its rows: each
    row before it has been handed to the sink, which accepted it, and no
    row or sink call of [i] comes after it. *)
Lemma finished_split w pre post i tok :
  reachable w -> trace w = pre ++ EvFinished i tok :: post ->
  rowsOf i pre = map c_row (sinkCallsOf i pre) /\
  Forall (fun c => c_ret c = None /\ PartitionToken (c_res c) = tok)
         (sinkCallsOf i pre) /\
  rowsOf i post = [] /\ sinkCallsOf i post = [].
Proof.
  intros Hw. revert pre post i tok. revert Hw.
  reach_induction w; simpl in *.
  - intros pre post i tok H. by destruct pre.
  - done.
  - intros pre post j tok H.
    assert (forall post', rowsOf j (post' ++ evs) = rowsOf j post' /\
                          sinkCallsOf j (post' ++ evs) = sinkCallsOf j post')
      as Hproj.
    { intros post'. rewrite rowsOf_app, sinkCallsOf_app.
      destruct (stepCaller_proj _ _ _ _ _ _ _ _ j Hs) as (-> & -> & _).
      by rewrite !app_nil_r. }
    caller_cases Hs;
      (apply snoc_split in H as [(post' & H & ->)|(pre' & -> & H)];
       [|new_event H]).
    all: destruct (Hproj post') as [-> ->].
    all: by eapply IH.
  - intros pre post j tok' H.
    apply snoc_split in H as [(post' & H & ->)|(pre' & -> & H)].
    + rewrite rowsOf_app, sinkCallsOf_app.
      destruct (IH _ _ _ _ H) as (A & B & -> & ->). simpl.
      split; [done|]. split; [done|].
      destruct (decide (j = i)) as [->|Hne].
      * destruct (trace_inv w Hw (EvFinished i tok') i) as (ti & Hti & Hal);
          [rewrite H; in_trace|done|].
        simpl in Hal. simplify_eq. unfold rowsOf, sinkCallsOf.
        task_cases Hs; simpl in Hal; done.
      * by destruct (stepTask_other _ _ _ _ _ _ _ j Hs Hne) as (-> & -> & _).
    + destruct (rows_inv w Hw i) as (_ & _ & _ & D). rewrite Ht in D.
      task_cases Hs; new_event H. rewrite app_nil_r. by destruct D.
Qed.

(** *** Goroutines that failed *)

(** A goroutine that has returned an error has no event of the part of
    [startRead] behind [markStateFinished]. *)
Lemma err_inv w i e ev :
  reachable w -> EvDone i (Some e) ∈ trace w -> ev ∈ trace w ->
  actor ev = Some i -> ~ isLate ev.
Proof.
  intros Hw. revert i e ev. revert Hw. reach_induction w; simpl in *.
  - intros i e ev H. by apply elem_of_nil in H.
  - done.
  - intros j e ev Hd Hev Hact.
    pose proof (stepCaller_events _ _ _ _ _ _ _ _ ev Hs) as Hnone.
    pose proof (stepCaller_events _ _ _ _ _ _ _ _ (EvDone j (Some e)) Hs)
      as Hnone'.
    apply elem_of_app in Hd as [Hd|Hd]; [|by specialize (Hnone' Hd)].
    apply elem_of_app in Hev as [Hev|Hev]; [by eapply IH|].
    rewrite Hnone in Hact; done.
  - intros j e ev Hd Hev Hact.
    apply elem_of_app in Hd as [Hd|Hd].
    + apply elem_of_app in Hev as [Hev|Hev]; [by eapply IH|].
      destruct (stepTask_events _ _ _ _ _ _ _ _ Hs Hev) as [Hi _].
      simplify_eq.
      destruct (trace_inv w Hw _ _ Hd eq_refl) as (ti & Hti & Hal).
      simpl in Hal. by simplify_eq.
    + destruct (stepTask_events _ _ _ _ _ _ _ _ Hs Hd) as [Hi _].
      simplify_eq/=.
      apply elem_of_app in Hev as [Hev|Hev].
      * destruct (trace_inv w Hw _ _ Hev Hact) as (ti & Hti & Hal).
        simplify_eq. intros Hlate.
        task_cases Hs; repeat (apply elem_of_cons in Hd as [Hd|Hd]);
          try (by apply elem_of_nil in Hd); simplify_eq.
        destruct ev; simpl in *; done.
      * task_cases Hs; repeat (apply elem_of_cons in Hd as [Hd|Hd]);
          try (by apply elem_of_nil in Hd); simplify_eq.
        apply list_elem_of_singleton in Hev as ->. simpl. tauto.
Qed.

(** A failed goroutine has neither marked its partition finished nor
    looked at or started a child. *)
Lemma failed_quiet w i e ev :
  reachable w -> failedWith w i e -> ev ∈ trace w -> actor ev = Some i ->
  ~ isLate ev.
Proof.
  intros Hw [Hf|[Hf Hd]] Hev Hact; [|by eapply err_inv].
  destruct (trace_inv w Hw ev i Hev Hact) as (t & Ht & Hal).
  simplify_eq. destruct ev; simpl in *; tauto.
Qed.


(** A claimed token is [Reading] or [Finished]. *)
Lemma claimed_inv w i tok :
  reachable w -> EvClaim i tok true ∈ trace w ->
  states (reader w) !! tok = Some partitionStateReading \/
  states (reader w) !! tok = Some partitionStateFinished.
Proof.
  intros Hw. revert i tok. revert Hw. reach_induction w; simpl in *.
  - intros i tok H. by apply elem_of_nil in H.
  - done.
  - intros j tok H.
    pose proof (stepCaller_events _ _ _ _ _ _ _ _ (EvClaim j tok true) Hs)
      as Hnone.
    destruct (stepCaller_states _ _ _ _ _ _ _ _ Hs) as (-> & _).
    apply elem_of_app in H as [H|H]; [by eapply IH|].
    by specialize (Hnone H).
  - intros j tok' H.
    assert (EvClaim j tok' true ∈ trace w ->
            forall k st, st = partitionStateReading \/
                         st = partitionStateFinished ->
            <[k := st]> (states (reader w)) !! tok'
              = Some partitionStateReading \/
            <[k := st]> (states (reader w)) !! tok'
              = Some partitionStateFinished) as Hins.
    { intros Hold k st Hst. destruct (decide (k = tok')) as [->|Hne].
      - rewrite lookup_insert_eq. destruct Hst as [-> | ->]; auto.
      - rewrite lookup_insert_ne by done. by eapply IH. }
    apply elem_of_app in H as [H|H].
    + specialize (IH _ _ H). specialize (Hins H).
      task_cases Hs; unfold markStateFinished; auto.
    + clear Hins.
      task_cases Hs; repeat (apply elem_of_cons in H as [H|H]);
        try (by apply elem_of_nil in H); simplify_eq;
        rewrite lookup_insert_eq; auto.
Qed.

(** The partition of a failed goroutine stays [Reading]. *)
Lemma failed_reading w i e tok :
  reachable w -> failedWith w i e -> EvClaim i tok true ∈ trace w ->
  states (reader w) !! tok = Some partitionStateReading.
Proof.
  intros Hw Hf Hc.
  destruct (claimed_inv w i tok Hw Hc) as [Hr|Hfin]; [done|].
  destruct (hist_inv w Hw) as [_ Hh].
  destruct (Hh tok Hfin) as [j Hj].
  destruct (list_elem_of_split _ _ Hj) as (pre & post & Htr).
  pose proof (finished_after_claim w pre post j tok Hw Htr) as Hcj.
  assert (j = i) as ->.
  { eapply claim_unique; [done| |done]. rewrite Htr. in_trace. }
  exfalso. by eapply (failed_quiet w i e (EvFinished i tok)).
Qed.

(** *** Every [group.Go] of a child comes after the parents *)

Lemma go_after_finished w pre post i j child start :
  reachable w -> trace w = pre ++ EvGo i j child start :: post ->
  Forall (fun p => exists k, EvFinished k p ∈ pre)
         (ParentPartitionTokens child).
Proof.
  intros Hw. revert pre post i j child start. revert Hw.
  reach_induction w; simpl in *.
  - intros pre post i j child start H. by destruct pre.
  - done.
  - intros pre post i j child start H.
    caller_cases Hs;
      (apply snoc_split in H as [(post' & H & _)|(pre' & -> & H)];
       [by eapply IH|new_event H]).
  - intros pre post k j child' start' H.
    apply snoc_split in H as [(post' & H & _)|(pre' & -> & H)];
      [by eapply IH|].
    pose proof (go_inv w Hw) as Hgo. destruct (hist_inv w Hw) as [_ Hh].
    task_cases Hs; new_event H. rewrite app_nil_r.
    eapply Forall_impl; [by eapply Hgo|]. simpl. intros p Hp. by apply Hh.
Qed.

Lemma pool_inv w : reachable w -> poolInv w.
Proof.
  reach_induction w; unfold poolInv in *; simpl in *.
  - intros j Hj. lia.
  - done.
  - intros j Hj. rewrite length_app in Hj.
    destruct (decide (j < length (tasks w))) as [Hlt|Hge].
    + destruct (IH j Hlt) as [[c' H]|(i & ch & st & H)];
        [left; exists c'|right; exists i, ch, st]; in_trace.
    + caller_cases Hs; simpl in Hj; try lia.
      left. exists c. assert (j = length (tasks w)) as -> by lia. in_trace.
  - intros j Hj. rewrite length_app, length_insert in Hj.
    destruct (decide (j < length (tasks w))) as [Hlt|Hge].
    + destruct (IH j Hlt) as [[c' H]|(k & ch & st & H)];
        [left; exists c'|right; exists k, ch, st]; in_trace.
    + task_cases Hs; simpl in Hj; try lia.
      right. exists i, child, start.
      assert (j = length (tasks w)) as -> by lia. in_trace.
Qed.

(** When a goroutine signals [Done], every child it found eligible has
    been handed to [group.Go]. *)
Lemma done_eligible w pre post i ret :
  reachable w -> trace w = pre ++ EvDone i ret :: post ->
  eligibleOf i pre = spawnedOf i pre.
Proof.
  intros Hw Htr. pose proof (spawns_inv w Hw i) as H.
  destruct (trace_inv w Hw (EvDone i ret) i) as (t & Ht & Hal);
    [rewrite Htr; in_trace|done|].
  simpl in Hal. subst t. rewrite Ht, Htr in H. simpl in H.
  rewrite eligibleOf_app, spawnedOf_app in H.
  change (eligibleOf i (EvDone i ret :: post)) with (eligibleOf i post) in H.
  change (spawnedOf i (EvDone i ret :: post)) with (spawnedOf i post) in H.
  destruct (proj_other i post) as (_ & _ & He & Hsp).
  { intros ev Hev. by eapply after_done. }
  rewrite He, Hsp, !app_nil_r in H. done.
Qed.


(** *** Steps and runs only add *)

Lemma step_trace l w w' :
  step l w = Some w' -> exists evs, trace w' = trace w ++ evs.
Proof.
  intros Hs. step_cases Hs; simpl; eauto. exists []. by rewrite app_nil_r.
Qed.

Lemma exec_trace ls w w' :
  exec ls w = Some w' -> exists evs, trace w' = trace w ++ evs.
Proof.
  revert w. induction ls as [|l ls IH]; intros w H; simpl in H.
  - simplify_eq. exists []. by rewrite app_nil_r.
  - destruct (step l w) as [w1|] eqn:Hs; [|done].
    destruct (step_trace _ _ _ Hs) as [evs1 H1].
    destruct (IH _ H) as [evs2 H2].
    exists (evs1 ++ evs2). by rewrite H2, H1, app_assoc.
Qed.

Lemma step_keeps_entry l w w' tok :
  step l w = Some w' -> is_Some (states (reader w) !! tok) ->
  is_Some (states (reader w') !! tok).
Proof.
  intros Hs Hin. step_cases Hs; simpl.
  - done.
  - by destruct (stepCaller_states _ _ _ _ _ _ _ _ Hsc) as (-> & _).
  - task_cases Hst; unfold markStateFinished; try done.
    all: rewrite lookup_insert; case_decide; [by eexists|done].
Qed.


(** *** The error of the group *)

Lemma head_app_keep {A} (l k : list A) :
  head (l ++ k) = match head l with Some x => Some x | None => head k end.
Proof. by destruct l. Qed.

Lemma group_err_inv w : reachable w -> groupErrInv w.
Proof.
  reach_induction w; unfold groupErrInv, errorsOf in *; simpl in *.
  - intros g Hg. congruence.
  - done.
  - intros g Hg. rewrite omap_app, head_app_keep.
    caller_cases Hs; simpl in *; simplify_eq/=;
      try (erewrite <- IH by done; simpl; by destruct (gerr _)).
    rewrite omap_all_None; [done|]. intros ev Hev.
    pose proof (group_inv w Hw) as Hgi. unfold groupInv in Hgi.
    rewrite Heqo in Hgi. destruct Hgi as [Hnil _].
    destruct ev as [| | | | | | | |i [e|]|]; try done.
    destruct (trace_inv w Hw _ i Hev eq_refl) as (t & Ht & _).
    rewrite Hnil in Ht. by rewrite lookup_nil in Ht.
  - intros g Hg. rewrite omap_app, head_app_keep.
    task_cases Hs; simpl in *; simplify_eq/=;
      try (erewrite <- IH by done; simpl; by destruct (gerr _)).
    all: unfold groupDone; erewrite <- (IH _) by done;
      repeat case_match; simplify_eq/=; try done.
Qed.

Lemma all_exited w g i t :
  reachable w -> group (reader w) = Some g -> wg g = 0%Z ->
  tasks w !! i = Some t -> t = TExited.
Proof.
  intros Hw Hg Hz Ht. pose proof (group_inv w Hw) as H.
  unfold groupInv in H. rewrite Hg in H.
  destruct (isLive t) eqn:Hl; [|by destruct t].
  pose proof (countIf_pos isLive _ _ _ Ht Hl). unfold liveCount in H. lia.
Qed.


End Properties.

(** ** Main results *)

Section Claims.

Context {E : Collaborators}.

Implicit Types (w : World) (r : Reader) (t : task) (cl : caller).
Implicit Types (m : gmap string partitionState) (tr : list event).

(** C1: [markStateReading] returns true if and only if the token has no
    entry, and then enters it as [Reading]; a call for a token with an
    entry returns false and leaves the map as it is, entries are never
    removed, and so in every run at most one call of [markStateReading]
    for a token returns true. *)
Theorem markStateReading_claims_once w tok :
  reachable w ->
  (forall m, (markStateReading m tok).2 = true <-> m !! tok = None) /\
  (forall m, m !! tok = None ->
     (markStateReading m tok).1 = <[tok := partitionStateReading]> m) /\
  (forall m st, m !! tok = Some st -> markStateReading m tok = (m, false)) /\
  (forall m, markStateReading (markStateReading m tok).1 tok
             = ((markStateReading m tok).1, false)) /\
  (forall l w', step l w = Some w' ->
     is_Some (states (reader w) !! tok) ->
     is_Some (states (reader w') !! tok)) /\
  (forall i start w', tasks w !! i = Some (TStart tok start) ->
     step (LTask i INone) w = Some w' ->
     states (reader w') = (markStateReading (states (reader w)) tok).1 /\
     claimsOf tok (trace w') =
     claimsOf tok (trace w) ++
     (if (markStateReading (states (reader w)) tok).2 then [i] else [])) /\
  length (claimsOf tok (trace w)) <= 1 /\
  (forall i j, EvClaim i tok true ∈ trace w ->
               EvClaim j tok true ∈ trace w -> i = j).
Proof.
  intros Hw.
  split; [|split; [|split; [|split; [|split; [|split; [|split]]]]]].
  - intros m. unfold markStateReading. by destruct (m !! tok).
  - intros m H. by rewrite markStateReading_absent.
  - intros m st H. by eapply markStateReading_present.
  - intros m. unfold markStateReading at 2 3.
    destruct (m !! tok) as [st|] eqn:Hm; simpl.
    + by erewrite markStateReading_present.
    + eapply markStateReading_present. apply lookup_insert_eq.
  - intros l w' Hs. by eapply step_keeps_entry.
  - intros i start w' Ht Hs. simpl in Hs. rewrite Ht in Hs.
    destruct (stepTask _ _ _ _ _ _) as [o|] eqn:Hst; [|done].
    injection Hs as <-. cbn [reader trace]. rewrite claimsOf_app.
    unfold markStateReading, claimsOf.
    task_cases Hst; rewrite ?decide_True by done; by rewrite ?app_nil_r.
  - pose proof (claims_inv w Hw tok) as H.
    destruct (states (reader w) !! tok); lia.
  - intros i j. by apply claim_unique.
Qed.

(** C2: [canReadChild] is true if and only if every parent token of the
    child is [Finished] in the registry, a token without entry counting
    as not finished; so whenever a goroutine calls [group.Go] for a child,
    every parent of the child is finished and has been marked so earlier
    in the run, and every goroutine but the root has come from such a
    call. *)
Theorem canReadChild_gates_spawn w :
  reachable w ->
  (forall m child,
     canReadChild m child = true <->
     Forall (fun p => m !! p = Some partitionStateFinished)
            (ParentPartitionTokens child)) /\
  (forall m child p,
     p ∈ ParentPartitionTokens child -> m !! p = None ->
     canReadChild m child = false) /\
  (forall i tok start child todo,
     tasks w !! i = Some (TGo tok start child todo) ->
     Forall (fun p => states (reader w) !! p = Some partitionStateFinished)
            (ParentPartitionTokens child)) /\
  (forall pre post i j child start,
     trace w = pre ++ EvGo i j child start :: post ->
     Forall (fun p => exists k, EvFinished k p ∈ pre)
            (ParentPartitionTokens child)) /\
  (forall j, j < length (tasks w) ->
     (exists c, EvGoRoot c j ∈ trace w) \/
     (exists i child start, EvGo i j child start ∈ trace w)).
Proof.
  intros Hw. split; [|split; [|split; [|split]]].
  - intros m child. apply allFinished_Forall.
  - intros m child p Hp Hm.
    destruct (canReadChild m child) eqn:Hc; [|done].
    apply allFinished_Forall in Hc. rewrite Forall_forall in Hc.
    specialize (Hc p Hp). congruence.
  - by apply go_inv.
  - intros pre post i j child start. by apply go_after_finished.
  - by apply pool_inv.
Qed.

(** C5: in every step the registry state of every token stays or moves
    one stage forward, [Unknown] to [Reading] by [markStateReading] or
    [Reading] to [Finished] by [markStateFinished]; [markStateFinished]
    is only run by the goroutine that claimed the token, after its claim;
    and no token is claimed twice. *)
Theorem registry_moves_forward w l w' tok :
  reachable w -> step l w = Some w' ->
  forward (stateOf (states (reader w)) tok)
          (stateOf (states (reader w')) tok) /\
  (is_Some (states (reader w) !! tok) ->
   is_Some (states (reader w') !! tok)) /\
  (forall m, stateOf (markStateReading m tok).1 tok = stateOf m tok \/
             (m !! tok = None /\
              stateOf (markStateReading m tok).1 tok
              = partitionStateReading)) /\
  (forall pre post i, trace w' = pre ++ EvFinished i tok :: post ->
                      EvClaim i tok true ∈ pre) /\
  length (claimsOf tok (trace w')) <= 1.
Proof.
  intros Hw Hs. assert (reachable w') as Hw' by (by eapply reach_step).
  split; [|split; [|split; [|split]]].
  - by apply (step_forward l).
  - by apply (step_keeps_entry l).
  - intros m. unfold markStateReading, stateOf.
    destruct (m !! tok) as [st|] eqn:Hm; simpl.
    + left. by rewrite Hm.
    + right. split; [done|]. by rewrite lookup_insert_eq.
  - intros pre post i. by apply finished_after_claim.
  - pose proof (claims_inv w' Hw' tok) as H.
    destruct (states (reader w') !! tok); lia.
Qed.

(** C3: when the row stream, the decoder or the sink returns an error to
    a goroutine inside [Do], [startRead] returns that error at once, with
    the registry, the group and the pool as they were; and from then on
    the goroutine stays failed, its partition stays [Reading], and it
    never marks the partition finished nor calls [group.Go] for a
    child. *)
Theorem startRead_error_stalls w i tok acc inp e :
  reachable w -> tasks w !! i = Some (TStream tok acc) ->
  failsWith (reader w) (sinkState w) tok inp e ->
  exists w1,
    step (LTask i inp) w = Some w1 /\
    tasks w1 !! i = Some (TReturn (Some e)) /\
    states (reader w1) = states (reader w) /\
    group (reader w1) = group (reader w) /\
    length (tasks w1) = length (tasks w) /\
    states (reader w) !! tok = Some partitionStateReading /\
    forall ls w', exec ls w1 = Some w' ->
      failedWith w' i e /\
      states (reader w') !! tok = Some partitionStateReading /\
      (forall tok', EvFinished i tok' ∉ trace w') /\
      (forall j child start, EvGo i j child start ∉ trace w').
Proof.
  intros Hw Ht Hfail.
  assert (exists o,
            stepTask (reader w) (sinkState w) i (length (tasks w))
                     (TStream tok acc) inp = Some o /\
            o_reader o = reader w /\ o_task o = TReturn (Some e) /\
            o_spawn o = []) as (o & Hst & Hr & Hto & Hsp).
  { unfold failsWith in Hfail. destruct inp as [| |row| |e']; try done;
      simpl in *.
    - destruct (decodeRow _ _ _) as [res|e']; simplify_eq.
      + destruct (sink (sinkState w) res) as [s' ret]; simplify_eq/=.
        eexists; repeat split.
      + eexists; repeat split.
    - simplify_eq. eexists; repeat split. }
  assert (step (LTask i inp) w
          = Some {| reader := o_reader o;
                    tasks := <[i:=o_task o]> (tasks w) ++ o_spawn o;
                    callers := callers w; sinkState := o_sink o;
                    trace := trace w ++ o_events o |}) as Hstep.
  { simpl. by rewrite Ht, Hst. }
  eexists. split; [exact Hstep|]. simpl.
  assert (failedWith
            {| reader := o_reader o;
               tasks := <[i:=o_task o]> (tasks w) ++ o_spawn o;
               callers := callers w; sinkState := o_sink o;
               trace := trace w ++ o_events o |} i e) as Hf1.
  { left. simpl. rewrite (lookup_pool_eq _ _ _ _ _ Ht). by rewrite Hto. }
  pose proof (reach_step _ _ _ Hw Hstep) as Hw1.
  assert (EvClaim i tok true ∈ trace w) as Hclaim.
  { destruct (hist_inv w Hw) as [Ho _]. eapply Ho; [done|].
    simpl. by apply bool_decide_eq_true. }
  split; [|split; [|split; [|split; [|split]]]].
  - rewrite (lookup_pool_eq _ _ _ _ _ Ht). by rewrite Hto.
  - by rewrite Hr.
  - by rewrite Hr.
  - by rewrite Hsp, app_nil_r, length_insert.
  - eapply owner_reading; [done..|]. simpl. by apply bool_decide_eq_true.
  - intros ls w' Hex.
    pose proof (reachable_exec _ _ _ Hw1 Hex) as Hw'.
    pose proof (failed_exec _ _ _ _ _ Hf1 Hex) as Hf'.
    destruct (exec_trace _ _ _ Hex) as [evs Htr]. simpl in Htr.
    split; [done|]. split; [|split].
    + eapply failed_reading; [done..|]. rewrite Htr. in_trace.
    + intros tok' Hin.
      by apply (failed_quiet w' i e (EvFinished i tok') Hw' Hf' Hin).
    + intros j child start Hin.
      by apply (failed_quiet w' i e (EvGo i j child start) Hw' Hf' Hin).
Qed.

(** C4: a goroutine hands every child it found eligible to [group.Go]
    before it signals [Done], and does nothing after; the counter of the
    group is the number of goroutines that have not signalled [Done], so
    while any goroutine is still running, with children to register or
    not, the counter is positive and no [Wait] returns. *)
Theorem spawns_before_done w :
  reachable w ->
  (forall pre post i ret,
     trace w = pre ++ EvDone i ret :: post ->
     eligibleOf i pre = spawnedOf i pre /\
     forall ev, ev ∈ post -> actor ev <> Some i) /\
  (forall i,
     eligibleOf i (trace w) =
     spawnedOf i (trace w) ++ pendingGo (tasks w !! i)) /\
  (forall i t,
     tasks w !! i = Some t -> isLive t = true ->
     exists g,
       group (reader w) = Some g /\ wg g = liveCount (tasks w) /\
       (0 < wg g)%Z /\
       forall c, callers w !! c = Some CWait -> step (LCaller c) w = None).
Proof.
  intros Hw. split; [|split].
  - intros pre post i ret Htr. split; [by eapply done_eligible|].
    intros ev Hev. by eapply after_done.
  - by apply spawns_inv.
  - intros i t Ht Hl.
    destruct (group_of_goroutine w i t Hw Ht) as (g & Hg & Hwg).
    pose proof (countIf_pos isLive _ _ _ Ht Hl) as Hpos.
    fold (liveCount (tasks w)) in Hpos.
    exists g. split; [done|]. split; [done|]. split; [lia|].
    intros c Hc. simpl. rewrite Hc. simpl. rewrite Hg.
    destruct (wg g =? 0)%Z eqn:Hz; [|done]. apply Z.eqb_eq in Hz. lia.
Qed.

(** C6: a call of [Read] that finds the group set returns the error
    "reader has already been read" in its first step; it starts no
    goroutine and leaves the reader, with its registry and its group, as
    it was. *)
Theorem Read_again_fails w c g :
  callers w !! c = Some CEnter -> group (reader w) = Some g ->
  step (LCaller c) w =
  Some {| reader := reader w; tasks := tasks w;
          callers := <[c := CReturned (Some errAlreadyRead)]> (callers w);
          sinkState := sinkState w;
          trace := trace w ++ [EvReadReturn c (Some errAlreadyRead)] |} /\
  errAlreadyRead = "reader has already been read"%string.
Proof.
  intros Hc Hg. split; [|done]. simpl. rewrite Hc. simpl. rewrite Hg.
  by rewrite app_nil_r.
Qed.

(** C8: [startRead] for a token that has an entry, whatever its state,
    returns nil in its first step: the reader, the pool and the state of
    the sink stay as they are, no stream is opened and no row is read;
    and the [Done] of a goroutine that returned nil leaves the error of
    the group alone. *)
Theorem startRead_absorbs_duplicate w i tok start st :
  tasks w !! i = Some (TStart tok start) ->
  states (reader w) !! tok = Some st ->
  step (LTask i INone) w =
  Some {| reader := reader w;
          tasks := <[i := TReturn None]> (tasks w);
          callers := callers w; sinkState := sinkState w;
          trace := trace w ++ [EvClaim i tok false] |} /\
  (forall g, gerr (groupDone g None) = gerr g /\
             cancelled (groupDone g None) = cancelled g).
Proof.
  intros Ht Hst. split.
  - simpl. rewrite Ht. simpl.
    rewrite (markStateReading_present _ _ _ Hst). by rewrite app_nil_r.
  - intros g. done.
Qed.

(** C10: for a child without parent tokens [canReadChild] is true
    whatever the registry holds, so a goroutine that meets such a child
    in its loop goes on to [group.Go] for it. *)
Theorem canReadChild_no_parents m child :
  ParentPartitionTokens child = [] ->
  canReadChild m child = true /\
  forall w i tok start todo,
    tasks w !! i = Some (TLoop tok ((start, child) :: todo)) ->
    step (LTask i INone) w =
    Some {| reader := reader w;
            tasks := <[i := TGo tok start child todo]> (tasks w);
            callers := callers w; sinkState := sinkState w;
            trace := trace w ++ [EvCanRead i child true] |}.
Proof.
  intros Hp. assert (forall m', canReadChild m' child = true) as Hc.
  { intros m'. unfold canReadChild. by rewrite Hp. }
  split; [done|]. intros w i tok start todo Ht.
  simpl. rewrite Ht. simpl. rewrite Hc. by rewrite app_nil_r.
Qed.


(** C7: the sink calls of a goroutine follow the rows of its stream, one
    call per row and in the same order, each call with the decoding of its
    row; only a last row that could not be decoded, in a goroutine that
    failed, is without call, and only the last call can have returned an
    error.  [markStateFinished] comes after all of it: every row before it
    has had its sink call, each of which returned nil, and no row or sink
    call of the goroutine comes after it. *)
Theorem sink_in_stream_order w i :
  reachable w ->
  (rowsOf i (trace w) = map c_row (sinkCallsOf i (trace w)) \/
   exists row e,
     rowsOf i (trace w) = map c_row (sinkCallsOf i (trace w)) ++ [row] /\
     failedWith w i e) /\
  Forall (fun c => decodeRow (rdialect (reader w))
                     (PartitionToken (c_res c)) (c_row c) = Ok (c_res c))
         (sinkCallsOf i (trace w)) /\
  (forall cs c, sinkCallsOf i (trace w) = cs ++ [c] ->
                Forall (fun c => c_ret c = None) cs) /\
  (forall pre post tok,
     trace w = pre ++ EvFinished i tok :: post ->
     rowsOf i pre = map c_row (sinkCallsOf i pre) /\
     Forall (fun c => c_ret c = None /\ PartitionToken (c_res c) = tok)
            (sinkCallsOf i pre) /\
     rowsOf i post = [] /\ sinkCallsOf i post = []).
Proof.
  intros Hw. destruct (rows_inv w Hw i) as (A & B & C & _).
  split; [done|]. split; [done|]. split; [done|].
  intros pre post tok. by apply finished_split.
Qed.

(** C9: a call of [Read] that finds no group sets a new one and then
    starts one goroutine, the root closure, which is the only goroutine a
    call of [Read] ever starts; the closure enters [startRead] with the
    empty token and with the configured start timestamp, or with the
    current time if that is zero; the call then waits until the counter of
    the group is zero, that is until every goroutine has exited, and
    returns the error of the group, which is the first error a goroutine
    has returned, or nil. *)
Theorem Read_first_call w c :
  reachable w -> callers w !! c = Some CEnter -> group (reader w) = None ->
  (exists w1 w2,
     step (LCaller c) w = Some w1 /\
     reader w1 = setGroup (reader w) (Some newGroup) /\
     tasks w1 = tasks w /\ callers w1 !! c = Some CGo /\
     step (LCaller c) w1 = Some w2 /\
     reader w2 = setGroup (reader w) (Some (groupAdd newGroup)) /\
     tasks w2 = tasks w ++ [TRoot] /\ callers w2 !! c = Some CWait /\
     trace w2 = trace w ++ [EvGoRoot c (length (tasks w))] /\
     forall now, exists w3,
       step (LTask (length (tasks w)) (INow now)) w2 = Some w3 /\
       reader w3 = reader w2 /\
       tasks w3 = tasks w ++
         [TStart "" (if IsZero (startTimestamp (reader w))
                     then now else startTimestamp (reader w))]) /\
  (forall r c' n cl r' cl' spawn evs,
     stepCaller r c' n cl = Some (r', cl', spawn, evs) ->
     spawn = match cl with CGo => [TRoot] | _ => [] end) /\
  (forall w' g,
     reachable w' -> callers w' !! c = Some CWait ->
     group (reader w') = Some g ->
     gerr g = head (errorsOf (trace w')) /\
     step (LCaller c) w' =
     if (wg g =? 0)%Z
     then Some {| reader :=
                    setGroup (reader w')
                      (Some {| wg := wg g; gerr := gerr g;
                               cancelled := true |});
                  tasks := tasks w';
                  callers := <[c := CReturned (gerr g)]> (callers w');
                  sinkState := sinkState w';
                  trace := trace w' ++ [EvReadReturn c (gerr g)] |}
     else None) /\
  (forall w' g i t,
     reachable w' -> group (reader w') = Some g -> wg g = 0%Z ->
     tasks w' !! i = Some t -> t = TExited).
Proof.
  intros Hw Hc Hg. split; [|split; [|split]].
  - pose proof (group_inv w Hw) as Hgi. unfold groupInv in Hgi.
    rewrite Hg in Hgi. destruct Hgi as [Hnil _].
    assert (c < length (callers w)) as Hlt by (by eapply lookup_lt_Some).
    eexists _, _. split.
    { simpl. rewrite Hc. simpl. rewrite Hg. reflexivity. }
    simpl. split; [done|]. split; [by rewrite app_nil_r|].
    split; [by apply list_lookup_insert_eq|]. split.
    { rewrite list_lookup_insert_eq by done. simpl. reflexivity. }
    simpl. split; [done|]. split; [by rewrite app_nil_r|].
    split; [apply list_lookup_insert_eq; by rewrite length_insert|].
    split; [by rewrite !app_nil_r|].
    intros now. rewrite Hnil. simpl. eexists. split; [reflexivity|].
    simpl. split; [done|].
    by destruct (IsZero (startTimestamp (reader w))).
  - intros r c' n cl r' cl' spawn evs Hs. by caller_cases Hs.
  - intros w' g Hw' Hc' Hg'. split; [by apply group_err_inv|].
    simpl. rewrite Hc'. simpl. rewrite Hg'.
    destruct (wg g =? 0)%Z; [|done]. by rewrite app_nil_r.
  - intros w' g i t. apply all_exited.
Qed.


End Claims.

(** ** The main results on the example runs *)

Lemma demo_reachable (ls : list (@label Demo.world)) (w : @World Demo.world) :
  exec ls Demo.w0 = Some w -> reachable w.
Proof.
  intros H. eapply reachable_exec; [|exact H]. by apply reach_init.
Qed.

(** In the race for [g] the token is claimed once. *)
Lemma markStateReading_claims_once_witness :
  @reachable Demo.world (Demo.after Demo.raceRun) /\
  length (claimsOf "g" (trace (Demo.after Demo.raceRun))) <= 1.
Proof.
  assert (@reachable Demo.world (Demo.after Demo.raceRun)) as H.
  { apply (demo_reachable Demo.raceRun). vm_compute. reflexivity. }
  split; [exact H|].
  destruct (markStateReading_claims_once _ "g" H)
    as (_ & _ & _ & _ & _ & _ & Hlen & _).
  exact Hlen.
Defined.

(** [b] is about to call [group.Go] for [g]: both parents are finished. *)
Lemma canReadChild_gates_spawn_witness :
  @reachable Demo.world (Demo.after Demo.diamondRun) /\
  Forall (fun p => states (reader (Demo.after Demo.diamondRun)) !! p
                   = Some partitionStateFinished)
         (ParentPartitionTokens Demo.childG).
Proof.
  assert (@reachable Demo.world (Demo.after Demo.diamondRun)) as H.
  { apply (demo_reachable Demo.diamondRun). vm_compute. reflexivity. }
  split; [exact H|].
  destruct (canReadChild_gates_spawn _ H) as (_ & _ & Hgo & _).
  apply (Hgo 2 "b" 9%Z Demo.childG []). vm_compute. reflexivity.
Defined.

(** The root meets a row that cannot be decoded. *)
Lemma startRead_error_stalls_witness :
  @reachable Demo.world (Demo.after Demo.streamingRun) /\
  tasks (Demo.after Demo.streamingRun) !! 0
  = Some (TStream "" Demo.announced) /\
  failsWith (reader (Demo.after Demo.streamingRun))
            (sinkState (Demo.after Demo.streamingRun)) ""
            (Demo.row_in (Demo.RowBad "malformed")) "malformed" /\
  exists w1,
    step (LTask 0 (Demo.row_in (Demo.RowBad "malformed")))
         (Demo.after Demo.streamingRun) = Some w1 /\
    tasks w1 !! 0 = Some (TReturn (Some "malformed")) /\
    states (reader w1) !! "" = Some partitionStateReading.
Proof.
  assert (@reachable Demo.world (Demo.after Demo.streamingRun)) as H.
  { apply (demo_reachable Demo.streamingRun). vm_compute. reflexivity. }
  assert (tasks (Demo.after Demo.streamingRun) !! 0
          = Some (TStream "" Demo.announced)) as Ht.
  { vm_compute. reflexivity. }
  assert (failsWith (reader (Demo.after Demo.streamingRun))
            (sinkState (Demo.after Demo.streamingRun)) ""
            (Demo.row_in (Demo.RowBad "malformed")) "malformed") as Hf.
  { vm_compute. reflexivity. }
  split; [exact H|]. split; [exact Ht|]. split; [exact Hf|].
  destruct (startRead_error_stalls _ 0 "" Demo.announced _ "malformed" H Ht Hf)
    as (w1 & Hs & Ht1 & _ & _ & _ & _ & Hall).
  exists w1. split; [exact Hs|]. split; [exact Ht1|].
  destruct (Hall [] w1 eq_refl) as (_ & Hr & _). exact Hr.
Defined.

(** While [a] is still running the counter of the group is positive. *)
Lemma spawns_before_done_witness :
  @reachable Demo.world (Demo.after Demo.diamondRun) /\
  exists g, group (reader (Demo.after Demo.diamondRun)) = Some g /\
            (0 < wg g)%Z.
Proof.
  assert (@reachable Demo.world (Demo.after Demo.diamondRun)) as H.
  { apply (demo_reachable Demo.diamondRun). vm_compute. reflexivity. }
  split; [exact H|].
  destruct (spawns_before_done _ H) as (_ & _ & Hlive).
  destruct (Hlive 1 (TLoop "a" [])) as (g & Hg & _ & Hpos & _).
  - vm_compute. reflexivity.
  - reflexivity.
  - exists g. split; [exact Hg|exact Hpos].
Defined.

(** The root marks itself finished: [Reading] to [Finished]. *)
Lemma registry_moves_forward_witness :
  @reachable Demo.world (Demo.after Demo.drainedRun) /\
  step (LTask 0 INone) (Demo.after Demo.drainedRun)
  = Some (Demo.after (Demo.drainedRun ++ [LTask 0 INone])) /\
  forward
    (stateOf (states (reader (Demo.after Demo.drainedRun))) "")
    (stateOf (states (reader (Demo.after
                                (Demo.drainedRun ++ [LTask 0 INone])))) "").
Proof.
  assert (@reachable Demo.world (Demo.after Demo.drainedRun)) as H.
  { apply (demo_reachable Demo.drainedRun). vm_compute. reflexivity. }
  assert (step (LTask 0 INone) (Demo.after Demo.drainedRun)
          = Some (Demo.after (Demo.drainedRun ++ [LTask 0 INone]))) as Hs.
  { vm_compute. reflexivity. }
  split; [exact H|]. split; [exact Hs|].
  destruct (registry_moves_forward _ _ _ "" H Hs) as (Hfw & _).
  exact Hfw.
Defined.

(** A second call of [Read] while the first one waits. *)
Lemma Read_again_fails_witness :
  callers (Demo.after (Demo.rootRun ++ [LCall])) !! 1 = Some CEnter /\
  group (reader (Demo.after (Demo.rootRun ++ [LCall])))
  = Some {| wg := 3; gerr := None; cancelled := false |} /\
  step (LCaller 1) (Demo.after (Demo.rootRun ++ [LCall])) =
  Some {| reader := reader (Demo.after (Demo.rootRun ++ [LCall]));
          tasks := tasks (Demo.after (Demo.rootRun ++ [LCall]));
          callers := <[1 := CReturned (Some errAlreadyRead)]>
                       (callers (Demo.after (Demo.rootRun ++ [LCall])));
          sinkState := sinkState (Demo.after (Demo.rootRun ++ [LCall]));
          trace := trace (Demo.after (Demo.rootRun ++ [LCall])) ++
                   [EvReadReturn 1 (Some errAlreadyRead)] |}.
Proof.
  assert (callers (Demo.after (Demo.rootRun ++ [LCall])) !! 1 = Some CEnter)
    as Hc by (vm_compute; reflexivity).
  assert (group (reader (Demo.after (Demo.rootRun ++ [LCall])))
          = Some {| wg := 3; gerr := None; cancelled := false |})
    as Hg by (vm_compute; reflexivity).
  split; [exact Hc|]. split; [exact Hg|].
  exact (proj1 (Read_again_fails _ 1 _ Hc Hg)).
Defined.

(** The rows of the root and its sink calls. *)
Lemma sink_in_stream_order_witness :
  @reachable Demo.world (Demo.after Demo.diamondRun) /\
  Forall (fun c => decodeRow (rdialect (reader (Demo.after Demo.diamondRun)))
                     (PartitionToken (c_res c)) (c_row c) = Ok (c_res c))
         (sinkCallsOf 0 (trace (Demo.after Demo.diamondRun))).
Proof.
  assert (@reachable Demo.world (Demo.after Demo.diamondRun)) as H.
  { apply (demo_reachable Demo.diamondRun). vm_compute. reflexivity. }
  split; [exact H|].
  destruct (sink_in_stream_order _ 0 H) as (_ & Hdec & _).
  exact Hdec.
Defined.

(** The second goroutine for [g] finds the token claimed. *)
Lemma startRead_absorbs_duplicate_witness :
  tasks (Demo.after Demo.raceRun) !! 4 = Some (TStart "g" 9%Z) /\
  states (reader (Demo.after Demo.raceRun)) !! "g"
  = Some partitionStateReading /\
  step (LTask 4 INone) (Demo.after Demo.raceRun) =
  Some {| reader := reader (Demo.after Demo.raceRun);
          tasks := <[4 := TReturn None]> (tasks (Demo.after Demo.raceRun));
          callers := callers (Demo.after Demo.raceRun);
          sinkState := sinkState (Demo.after Demo.raceRun);
          trace := trace (Demo.after Demo.raceRun) ++
                   [EvClaim 4 "g" false] |}.
Proof.
  assert (tasks (Demo.after Demo.raceRun) !! 4 = Some (TStart "g" 9%Z))
    as Ht by (vm_compute; reflexivity).
  assert (states (reader (Demo.after Demo.raceRun)) !! "g"
          = Some partitionStateReading) as Hst by (vm_compute; reflexivity).
  split; [exact Ht|]. split; [exact Hst|].
  exact (proj1 (startRead_absorbs_duplicate _ 4 "g" 9%Z _ Ht Hst)).
Defined.

(** The first call of [Read] on the fresh reader. *)
Lemma Read_first_call_witness :
  @reachable Demo.world (Demo.after [LCall]) /\
  callers (Demo.after [LCall]) !! 0 = Some CEnter /\
  group (reader (Demo.after [LCall])) = None /\
  exists w1 w2,
    step (LCaller 0) (Demo.after [LCall]) = Some w1 /\
    step (LCaller 0) w1 = Some w2 /\
    tasks w2 = tasks (Demo.after [LCall]) ++ [TRoot].
Proof.
  assert (@reachable Demo.world (Demo.after [LCall])) as H.
  { apply (demo_reachable [LCall]). vm_compute. reflexivity. }
  assert (callers (Demo.after [LCall]) !! 0 = Some CEnter) as Hc
    by (vm_compute; reflexivity).
  assert (group (reader (Demo.after [LCall])) = None) as Hg
    by (vm_compute; reflexivity).
  split; [exact H|]. split; [exact Hc|]. split; [exact Hg|].
  destruct (Read_first_call _ 0 H Hc Hg) as ((w1 & w2 & Hrest) & _).
  destruct Hrest as (H1 & _ & _ & _ & H2 & _ & Ht & _).
  exists w1, w2. split; [exact H1|]. split; [exact H2|exact Ht].
Defined.

(** A child that names no parent can be read at once. *)
Lemma canReadChild_no_parents_witness :
  ParentPartitionTokens Demo.orphan = [] /\
  canReadChild ∅ Demo.orphan = true.
Proof.
  split; [reflexivity|].
  exact (proj1 (@canReadChild_no_parents Demo.world ∅ Demo.orphan eq_refl)).
Defined.

(** * More of the reader *)

(** ** More of the reader: construction and statements *)

(** [NewReader]: [NewReaderWithConfig] with a [Config] that sets only the
    client configuration, so the timestamps and the heartbeat interval are
    the zero values. *)
Definition NewReader (client : result unit) (detected : result dialect)
    (stream : string) : result Reader :=
  NewReaderWithConfig client detected stream
    {| cfg_StartTimestamp := 0%Z; cfg_EndTimestamp := 0%Z;
       cfg_HeartbeatInterval := 0%Z |}.

(** The four parameters of the statement of a dialect, by name; [None] for
    any other name. *)
Definition expectedParam (r : Reader) (partitionToken : string) (start : Time)
    (kStart kEnd kToken kHeartbeat : string) (k : string) : option param :=
  if decide (k = kStart) then Some (PTime start)
  else if decide (k = kEnd) then
    Some (if IsZero (endTimestamp r) then PNil else PTime (endTimestamp r))
  else if decide (k = kToken) then
    Some (if bool_decide (partitionToken = "") then PNil
          else PString partitionToken)
  else if decide (k = kHeartbeat) then
    Some (PDuration (Z.quot (heartbeatInterval r) Millisecond))
  else None.


(** ** More of the reader: what the runs show *)

Section MoreProjections.

Context {E : Collaborators}.

Implicit Types (w : World) (r : Reader) (t : task) (cl : caller).

(** The child announcements [startRead] has gathered after the given sink
    calls: the row callback appends those of every result before it calls
    the sink. *)
Definition recordsOf (calls : list sinkCall) : list ChildPartitionsRecord :=
  appendChildren [] (concat (map (fun c => ChangeRecords (c_res c)) calls)).

(** The children goroutine [i] has put to [canReadChild], in order. *)
Definition checkedOf (i : nat) (tr : list event) : list ChildPartition :=
  omap (fun ev => match ev with
                  | EvCanRead j child _ =>
                      if decide (j = i) then Some child else None
                  | _ => None
                  end) tr.

(** The start timestamps and children goroutine [i] has handed to
    [group.Go], in order. *)
Definition goPairsOf (i : nat) (tr : list event)
  : list (Time * ChildPartition) :=
  omap (fun ev => match ev with
                  | EvGo j _ child start =>
                      if decide (j = i) then Some (start, child) else None
                  | _ => None
                  end) tr.

(** The calls of [Read] that have started a root closure, each with the
    goroutine it started. *)
Definition rootsOf (tr : list event) : list (nat * nat) :=
  omap (fun ev => match ev with
                  | EvGoRoot c j => Some (c, j)
                  | _ => None
                  end) tr.

(** The calls of [Read] that have set the group and not yet started the
    root closure. *)
Fixpoint countCGo (cs : list caller) : nat :=
  match cs with
  | [] => 0
  | CGo :: cs' => S (countCGo cs')
  | _ :: cs' => countCGo cs'
  end.

(** An input with which a goroutine at point [t] can take its next step:
    the clock for the root closure, the end of the stream inside [Do]. *)
Definition inputFor (t : task) : input :=
  match t with
  | TRoot => INow 0%Z
  | TStream _ _ => IDone
  | _ => INone
  end.

(** The children a goroutine has been told of by the given sink calls, with
    their start timestamps, in the order of the loops over the children. *)
Definition announcedOf (calls : list sinkCall) : list (Time * ChildPartition) :=
  childrenOf (recordsOf calls).

(** What the loops over the children have done when goroutine [i] is at
    point [o] of [startRead], given the announced children [ann], the
    children [checked] put to [canReadChild] and whether the goroutine has
    signalled [Done] with nil. *)
Definition loopState (o : option task) (calls : list sinkCall)
    (checked : list ChildPartition) (doneNil : Prop) : Prop :=
  match o with
  | Some (TStream _ acc) | Some (TFinish _ acc) =>
      acc = recordsOf calls /\ checked = []
  | Some (TLoop _ todo) =>
      exists visited,
        announcedOf calls = visited ++ todo /\ map snd visited = checked
  | Some (TGo _ start child todo) =>
      exists visited,
        announcedOf calls = visited ++ (start, child) :: todo /\
        map snd visited ++ [child] = checked
  | Some (TReturn None) => map snd (announcedOf calls) = checked
  | Some TExited => doneNil -> map snd (announcedOf calls) = checked
  | _ => True
  end.

(** Every pair handed to [group.Go] has been announced, and the loops are
    where [loopState] says. *)
Definition loopInv w : Prop :=
  forall i,
    Forall (fun p => p ∈ announcedOf (sinkCallsOf i (trace w)))
           (goPairsOf i (trace w)) /\
    loopState (tasks w !! i) (sinkCallsOf i (trace w))
              (checkedOf i (trace w)) (EvDone i None ∈ trace w).

(** The token goroutine [j] has been started for: the empty token by
    [Read], the token of the child by a parent. *)
Definition startedFor (tr : list event) (j : nat) (tok : string) : Prop :=
  (tok = "" /\ exists c, EvGoRoot c j ∈ tr) \/
  (exists i child start, EvGo i j child start ∈ tr /\ Token child = tok).

(** The token a goroutine at point [t] works on is [tok]. *)
Definition worksOn (t : task) (tok : string) : Prop :=
  match t with
  | TRoot => tok = ""
  | TStart tok' _ | TStream tok' _ | TFinish tok' _ | TLoop tok' _
  | TGo tok' _ _ _ => tok' = tok
  | TReturn _ | TExited => True
  end.

(** The statements goroutine [i] has queried, in order. *)
Definition queriesOf (i : nat) (tr : list event) : list Statement :=
  omap (fun ev => match ev with
                  | EvQuery j stmt => if decide (j = i) then Some stmt else None
                  | _ => None
                  end) tr.

(** The fields of the reader that are set at construction and read by the
    goroutines without the mutex. *)
Definition sameConfig (r r' : Reader) : Prop :=
  streamID r' = streamID r /\ startTimestamp r' = startTimestamp r /\
  endTimestamp r' = endTimestamp r /\
  heartbeatInterval r' = heartbeatInterval r /\ rdialect r' = rdialect r.

(** A goroutine has made no query before its claim and at most one after,
    built for a token it has claimed. *)
Definition queryInv w : Prop :=
  forall i,
    length (queriesOf i (trace w)) <= 1 /\
    (match tasks w !! i with
     | None | Some TRoot | Some (TStart _ _) => queriesOf i (trace w) = []
     | _ => True
     end) /\
    forall stmt, stmt ∈ queriesOf i (trace w) ->
      exists tok start,
        EvClaim i tok true ∈ trace w /\
        buildStatement (reader w) tok start = Some stmt.

(** An event that names a token names [tok]. *)
Definition namesToken (tok : string) (ev : event) : Prop :=
  match ev with
  | EvClaim _ tok' _ | EvFinished _ tok' => tok' = tok
  | _ => True
  end.

(** A goroutine started for a token is in the pool, works on that token,
    and names no other token in its events. *)
Definition startInv w : Prop :=
  forall j tok,
    startedFor (trace w) j tok ->
    (exists t, tasks w !! j = Some t /\ worksOn t tok) /\
    (forall ev, ev ∈ trace w -> actor ev = Some j -> namesToken tok ev).

(** Where a goroutine can be when the dialect of the reader is not one
    that [startRead] knows, with [e] the error for that dialect. *)
Definition unreadPoint (e : error) (t : task) : Prop :=
  match t with
  | TRoot | TStart _ _ | TExited => True
  | TReturn ret => ret = None \/ ret = Some e
  | _ => False
  end.

(** The events of reading: none of them happens with a dialect that
    [startRead] does not know. *)
Definition isReadEvent (ev : event) : Prop :=
  match ev with
  | EvQuery _ _ | EvRow _ _ | EvSink _ _ _ _ | EvFinished _ _
  | EvCanRead _ _ _ | EvGo _ _ _ _ => True
  | _ => False
  end.

End MoreProjections.


(** ** More example runs *)

Module Demo2.

Import Demo.

Local Open Scope Z_scope.

(** The reader of the examples, for the PostgreSQL dialect and for a
    dialect [startRead] does not know. *)
Definition rdPG : Reader :=
  {| streamID := "Stream"; startTimestamp := 0; endTimestamp := 0;
     heartbeatInterval := 10 * Second; rdialect := dialectPostgreSQL;
     states := ∅; group := None |}.

Definition rdOther : Reader :=
  {| streamID := "Stream"; startTimestamp := 0; endTimestamp := 0;
     heartbeatInterval := 10 * Second; rdialect := dialectOther "MYSQL";
     states := ∅; group := None |}.

(** [Read] on [rdOther], up to the claim of the root. *)
Definition otherRun : list (@label world) :=
  [ LCall; LCaller 0; LCaller 0; LTask 0 (INow 5); LTask 0 INone ].

Definition afterOther : @World world :=
  default w0 (exec otherRun (@initWorld world rdOther 0%nat)).

(** The statement for a token and a start timestamp under [rd]. *)
Definition stmtFor (tok : string) (start : Time) : Statement :=
  default {| SQL := ""; Params := ∅ |} (buildStatement rd tok start).

(** The root has marked itself finished and is at the head of its loops
    over [a] and [b]. *)
Definition finishedRun : list (@label world) :=
  [ LCall; LCaller 0; LCaller 0;
    LTask 0 (INow 5);
    LTask 0 INone;
    LTask 0 (row_in (heartbeat 6));
    LTask 0 (row_in (announce 7 [childA; childB]));
    LTask 0 IDone;
    LTask 0 INone ].

(** The diamond read to its end: every goroutine has exited and the call of
    [Read] still waits. *)
Definition doneRun : list (@label world) :=
  diamondRun ++
  [ LTask 2 INone; LTask 2 INone; LTask 2 INone;
    LTask 1 INone; LTask 1 INone;
    LTask 3 INone; LTask 3 IDone; LTask 3 INone; LTask 3 INone;
    LTask 3 INone ].

(** The result the sink got for the heartbeat of the root. *)
Definition heartbeatResult : ReadResult :=
  {| PartitionToken := "";
     ChangeRecords :=
       [ {| DataChangeRecords := [];
            HeartbeatRecords := [ {| Timestamp := 6 |} ];
            ChildPartitionsRecords := [] |} ] |}.

End Demo2.
(** X1: [NewReaderWithConfig] returns the error of the client as it is, also
    when the dialect could not be detected either; otherwise it wraps the
    error of the detection; otherwise the reader it returns is fresh (empty
    registry, no group), has the detected dialect and the configured
    timestamps, and a heartbeat interval that is never zero: the configured
    one, or ten seconds if that is zero. *)
Theorem NewReaderWithConfig_result client detected stream config :
  match NewReaderWithConfig client detected stream config with
  | Err e =>
      client = Err e \/
      (exists u e', client = Ok u /\ detected = Err e' /\
                    e = ("failed to detect dialect: " ++ e')%string)
  | Ok r =>
      (exists u, client = Ok u) /\ detected = Ok (rdialect r) /\
      states r = ∅ /\ group r = None /\ streamID r = stream /\
      startTimestamp r = cfg_StartTimestamp config /\
      endTimestamp r = cfg_EndTimestamp config /\
      heartbeatInterval r <> 0%Z /\
      (cfg_HeartbeatInterval config <> 0%Z ->
       heartbeatInterval r = cfg_HeartbeatInterval config) /\
      (cfg_HeartbeatInterval config = 0%Z ->
       heartbeatInterval r = 10000000000%Z)
  end.
Proof.
  unfold NewReaderWithConfig.
  destruct client as [u|e]; [|by left].
  destruct detected as [d|e']; [|right; by exists u, e'].
  simpl. split; [by exists u|]. split_and!; try done.
  - by destruct (Z.eqb_spec (cfg_HeartbeatInterval config) 0).
  - intros Hne. by destruct (Z.eqb_spec (cfg_HeartbeatInterval config) 0).
  - by intros ->.
Qed.

(** X3: for the GoogleSQL dialect [startRead] builds the query over
    [READ_<stream>] with exactly four parameters: the start timestamp, the
    end timestamp (NULL when the reader's end timestamp is zero), the
    partition token (NULL for the empty token of the root) and the heartbeat
    interval in whole milliseconds. *)
Theorem buildStatement_GoogleSQL r tok start :
  rdialect r = dialectGoogleSQL ->
  exists stmt,
    buildStatement r tok start = Some stmt /\
    SQL stmt = ("SELECT ChangeRecord FROM READ_" ++ streamID r ++
                "(@start_timestamp, @end_timestamp, @partition_token, @heartbeat_millis_second)")%string /\
    forall k,
      Params stmt !! k =
      expectedParam r tok start "start_timestamp" "end_timestamp"
                    "partition_token" "heartbeat_millis_second" k.
Proof.
  intros Hd. unfold buildStatement. rewrite Hd. eexists.
  split; [reflexivity|]. split; [reflexivity|]. intros k. simpl.
  unfold expectedParam.
  destruct (IsZero (endTimestamp r)), (bool_decide (tok = ""));
    repeat case_decide; simplify_map_eq; done.
Qed.

(** X4: for the PostgreSQL dialect [startRead] builds the query over
    [spanner.read_json_<stream>] with exactly the four parameters [p1] to
    [p4]: the start timestamp, the end timestamp (NULL when zero), the
    partition token (NULL for the empty token) and the heartbeat interval in
    whole milliseconds. *)
Theorem buildStatement_PostgreSQL r tok start :
  rdialect r = dialectPostgreSQL ->
  exists stmt,
    buildStatement r tok start = Some stmt /\
    SQL stmt = ("SELECT * FROM spanner.read_json_" ++ streamID r ++
                "($1, $2, $3, $4, null)")%string /\
    forall k, Params stmt !! k = expectedParam r tok start "p1" "p2" "p3" "p4" k.
Proof.
  intros Hd. unfold buildStatement. rewrite Hd. eexists.
  split; [reflexivity|]. split; [reflexivity|]. intros k. simpl.
  unfold expectedParam.
  destruct (IsZero (endTimestamp r)), (bool_decide (tok = ""));
    repeat case_decide; simplify_map_eq; done.
Qed.

Section MoreProperties.

Context {E : Collaborators}.

Implicit Types (w : World) (r : Reader) (t : task) (cl : caller).
Implicit Types (m : gmap string partitionState) (tr : list event).

(** *** Gathering the children *)

Lemma appendChildren_concat acc crs :
  appendChildren acc crs = acc ++ concat (map ChildPartitionsRecords crs).
Proof.
  unfold appendChildren. revert acc.
  induction crs as [|cr crs IH]; intros acc; simpl.
  - by rewrite app_nil_r.
  - rewrite IH. destruct (ChildPartitionsRecords cr) as [|c cs] eqn:Hcr.
    + done.
    + simpl. by rewrite <- app_assoc.
Qed.

Lemma childrenOf_app recs1 recs2 :
  childrenOf (recs1 ++ recs2) = childrenOf recs1 ++ childrenOf recs2.
Proof. unfold childrenOf. apply flat_map_app. Qed.

(** X5: the loop of the row callback appends the child announcements of
    the change records of a row to those gathered before, in the order of
    the row; a change record without announcement adds nothing, none is
    dropped; and the loops over the children visit the children of the
    records in that order, every child of every record once. *)
Theorem appendChildren_keeps_order acc crs1 crs2 :
  appendChildren acc (crs1 ++ crs2)
  = appendChildren (appendChildren acc crs1) crs2 /\
  appendChildren acc crs1
  = acc ++ concat (map ChildPartitionsRecords crs1) /\
  childrenOf (appendChildren acc crs1)
  = childrenOf acc ++
    flat_map (fun cr => childrenOf (ChildPartitionsRecords cr)) crs1 /\
  length (childrenOf acc)
  = sum_list (map (fun rec => length (ChildPartitions rec)) acc).
Proof.
  split_and!.
  - unfold appendChildren. apply fold_left_app.
  - apply appendChildren_concat.
  - rewrite appendChildren_concat, childrenOf_app. f_equal.
    induction crs1 as [|cr crs IH]; [done|]. simpl.
    by rewrite childrenOf_app, IH.
  - induction acc as [|rec acc IH]; [done|]. simpl.
    by rewrite length_app, length_map, IH.
Qed.

(** *** Eligibility *)

Lemma exec_keeps_finished ls w w' p :
  exec ls w = Some w' ->
  states (reader w) !! p = Some partitionStateFinished ->
  states (reader w') !! p = Some partitionStateFinished.
Proof.
  revert w. induction ls as [|l ls IH]; intros w H Hp; simpl in H.
  - by simplify_eq.
  - destruct (step l w) as [w1|] eqn:Hs; [|done].
    eapply IH; [done|]. by eapply step_keeps_finished.
Qed.

(** X6: once [canReadChild] is true for a child it stays true however the
    run goes on: no step takes [Finished] away from a parent, so a child
    that a finishing parent finds eligible is eligible for every later
    check. *)
Theorem canReadChild_stays_true ls w w' child :
  canReadChild (states (reader w)) child = true ->
  exec ls w = Some w' ->
  canReadChild (states (reader w')) child = true.
Proof.
  intros Hc Hex. apply allFinished_Forall. apply allFinished_Forall in Hc.
  eapply Forall_impl; [exact Hc|]. simpl. intros p Hp.
  by eapply exec_keeps_finished.
Qed.

(** *** The entries of the registry *)

Lemma entry_inv w tok st :
  reachable w -> states (reader w) !! tok = Some st ->
  st <> partitionStateUnknown /\ exists i, EvClaim i tok true ∈ trace w.
Proof.
  intros Hw. revert tok st. revert Hw. reach_induction w; simpl in *.
  - intros tok st. by rewrite Hfresh_states, lookup_empty.
  - done.
  - intros tok st Hst.
    destruct (stepCaller_states _ _ _ _ _ _ _ _ Hs) as (Heq & _).
    rewrite Heq in Hst. destruct (IH _ _ Hst) as [Hne [i Hi]].
    split; [done|]. exists i. in_trace.
  - intros tok' st Hst.
    assert (forall st', states (reader w) !! tok' = Some st' ->
              st' <> partitionStateUnknown /\
              exists k, EvClaim k tok' true ∈ trace w ++ o_events o) as IH'.
    { intros st' H. destruct (IH _ _ H) as [Hne [k Hk]].
      split; [done|]. exists k. in_trace. }
    clear IH.
    task_cases Hs; unfold markStateFinished in *;
      try (rewrite ?app_nil_r in IH'; by eapply IH');
      try match type of Hst with
          | <[?k := _]> _ !! ?k' = _ =>
              destruct (decide (k = k')) as [->|]; simplify_map_eq
          end;
      try (by eapply IH').
    all: try (split; [done|]; exists i; in_trace).
    left. destruct (hist_inv w Hw) as [Ho _]. eapply Ho; [done|].
    simpl. by apply bool_decide_eq_true.
Qed.

(** X7: the registry holds an entry exactly for the tokens that some
    goroutine has claimed, and an entry is [Reading] or [Finished], never
    [Unknown]: the state of a token reads as [Unknown] only when the token
    has no entry. *)
Theorem registry_entries_are_claims w tok :
  reachable w ->
  (is_Some (states (reader w) !! tok) <->
   exists i, EvClaim i tok true ∈ trace w) /\
  states (reader w) !! tok <> Some partitionStateUnknown /\
  (stateOf (states (reader w)) tok = partitionStateUnknown <->
   states (reader w) !! tok = None).
Proof.
  intros Hw.
  assert (states (reader w) !! tok <> Some partitionStateUnknown) as Hnu.
  { intros H. by destruct (entry_inv w tok _ Hw H). }
  split_and!; [split| |split].
  - intros [st Hst]. by destruct (entry_inv w tok st Hw Hst).
  - intros [i Hi]. destruct (claimed_inv w i tok Hw Hi) as [H|H];
      rewrite H; by eexists.
  - done.
  - unfold stateOf. destruct (states (reader w) !! tok) as [st|]; [|done].
    simpl. intros ->. done.
  - unfold stateOf. by intros ->.
Qed.


(** X2: a reader made by [NewReader] reads from the current time without
    end and with a heartbeat of ten seconds: the root closure enters
    [startRead] with the time of the clock, the start and end timestamps are
    zero, and the statement of every partition has a NULL end timestamp and
    a heartbeat of 10000 milliseconds. *)
Theorem NewReader_defaults client detected stream r tok start stmt :
  NewReader client detected stream = Ok r ->
  buildStatement r tok start = Some stmt ->
  (forall s i n now,
     stepTask r s i n TRoot (INow now) =
     Some {| o_reader := r; o_sink := s; o_task := TStart "" now;
             o_spawn := []; o_events := [] |}) /\
  startTimestamp r = 0%Z /\ endTimestamp r = 0%Z /\
  heartbeatInterval r = (10 * Second)%Z /\
  states r = ∅ /\ group r = None /\
  match rdialect r with
  | dialectGoogleSQL =>
      Params stmt !! "end_timestamp" = Some PNil /\
      Params stmt !! "heartbeat_millis_second" = Some (PDuration 10000%Z)
  | dialectPostgreSQL =>
      Params stmt !! "p2" = Some PNil /\
      Params stmt !! "p4" = Some (PDuration 10000%Z)
  | dialectOther _ => False
  end.
Proof.
  unfold NewReader, NewReaderWithConfig. intros Hn Hb.
  destruct client as [u|e]; [|done]. destruct detected as [d|e]; [|done].
  simpl in Hn. simplify_eq. simpl. split_and!; try done.
  unfold buildStatement in Hb. simpl in Hb.
  destruct d; simplify_eq/=;
    destruct (bool_decide (tok = "")); simplify_map_eq; done.
Qed.
(** *** What the sink receives *)

Lemma sink_claim_inv w i row res ret :
  reachable w -> EvSink i row res ret ∈ trace w ->
  EvClaim i (PartitionToken res) true ∈ trace w.
Proof.
  intros Hw. revert i row res ret. revert Hw. reach_induction w; simpl in *.
  - intros i row res ret H. by apply elem_of_nil in H.
  - done.
  - intros i row res ret H.
    pose proof (stepCaller_events _ _ _ _ _ _ _ _ (EvSink i row res ret) Hs)
      as Hnone.
    apply elem_of_app in H as [H|H]; [|by specialize (Hnone H)].
    apply elem_of_app. left. by eapply IH.
  - intros j row res ret H. apply elem_of_app.
    apply elem_of_app in H as [H|H]; [left; by eapply IH|]. left.
    destruct (hist_inv w Hw) as [Ho _].
    task_cases Hs; repeat (apply elem_of_cons in H as [H|H]);
      try (by apply elem_of_nil in H); simplify_eq.
    all: erewrite decodeRow_token by done.
    all: eapply Ho; [done|]; simpl; by apply bool_decide_eq_true.
Qed.

Lemma elem_of_sinkCallsOf i tr row res ret :
  EvSink i row res ret ∈ tr ->
  {| c_row := row; c_res := res; c_ret := ret |} ∈ sinkCallsOf i tr.
Proof.
  intros H. unfold sinkCallsOf. apply list_elem_of_omap.
  exists (EvSink i row res ret). split; [done|]. simpl.
  by rewrite decide_True.
Qed.

Lemma decodePostgresRow_shape row cr :
  decodePostgresRow row = Ok cr ->
  length (DataChangeRecords cr) <= 1 /\
  length (HeartbeatRecords cr) <= 1 /\
  length (ChildPartitionsRecords cr) <= 1.
Proof.
  unfold decodePostgresRow. intros H.
  repeat case_match; simplify_eq; simpl; lia.
Qed.

(** X8: every result the sink is called with is the decoding of a row of
    the stream under the reader's dialect, and carries the token of the
    partition that the calling goroutine has claimed; for the PostgreSQL
    dialect it holds exactly one change record, with at most one data
    change, one heartbeat and one child announcement. *)
Theorem sink_results w i row res ret :
  reachable w -> EvSink i row res ret ∈ trace w ->
  EvClaim i (PartitionToken res) true ∈ trace w /\
  EvRow i row ∈ trace w /\
  decodeRow (rdialect (reader w)) (PartitionToken res) row = Ok res /\
  (rdialect (reader w) = dialectPostgreSQL ->
   exists cr,
     decodePostgresRow row = Ok cr /\ ChangeRecords res = [cr] /\
     length (DataChangeRecords cr) <= 1 /\
     length (HeartbeatRecords cr) <= 1 /\
     length (ChildPartitionsRecords cr) <= 1).
Proof.
  intros Hw Hev.
  assert (decodeRow (rdialect (reader w)) (PartitionToken res) row = Ok res)
    as Hdec.
  { destruct (rows_inv w Hw i) as (_ & _ & C & _).
    rewrite Forall_forall in C.
    exact (C _ (elem_of_sinkCallsOf _ _ _ _ _ Hev)). }
  split_and!.
  - by eapply sink_claim_inv.
  - destruct (rows_inv w Hw i) as (A & _ & _ & _).
    assert (row ∈ map c_row (sinkCallsOf i (trace w))) as Hin.
    { apply list_elem_of_fmap.
      exists {| c_row := row; c_res := res; c_ret := ret |}.
      split; [done|]. by apply elem_of_sinkCallsOf. }
    assert (row ∈ rowsOf i (trace w)) as Hrow.
    { destruct A as [->|(row' & e & -> & _)]; [done|].
      apply elem_of_app. by left. }
    unfold rowsOf in Hrow. apply list_elem_of_omap in Hrow as (ev & Hin' & Hf).
    destruct ev; simplify_eq/=. case_decide; by simplify_eq.
  - done.
  - intros Hpg. rewrite Hpg in Hdec. simpl in Hdec.
    destruct (decodePostgresRow row) as [cr|e] eqn:Hcr; [|done].
    exists cr. split; [done|]. split.
    + injection Hdec as Hd. by rewrite <- Hd.
    + by apply (decodePostgresRow_shape row).
Qed.

(** *** No goroutine is ever stuck *)

(** X9: a goroutine that has not exited can always take its next step: it
    never waits for another goroutine, and the group it calls [Go] and
    [Done] on is never nil; inside [Do] it takes whatever the stream gives,
    a row, the end or an error. *)
Theorem goroutine_never_stuck w i t :
  reachable w -> tasks w !! i = Some t -> isLive t = true ->
  is_Some (step (LTask i (inputFor t)) w) /\
  is_Some (group (reader w)) /\
  (forall tok acc, t = TStream tok acc ->
     (forall row, is_Some (step (LTask i (IRow row)) w)) /\
     (forall e, is_Some (step (LTask i (IErr e)) w))).
Proof.
  intros Hw Ht Hl.
  destruct (group_of_goroutine w i t Hw Ht) as (g & Hg & _).
  split_and!.
  - simpl. rewrite Ht.
    destruct t as [|tok start|tok acc|tok acc|tok [|[start child] todo]
                   |tok start child todo|ret|]; simpl; try done;
      rewrite ?Hg; try by eexists.
    + unfold markStateReading. destruct (states (reader w) !! tok);
        [by eexists|].
      destruct (buildStatement _ _ _); by eexists.
    + destruct (canReadChild _ _); by eexists.
  - by rewrite Hg.
  - intros tok acc ->. split.
    + intros row. simpl. rewrite Ht. simpl.
      destruct (decodeRow _ _ _) as [res|e]; [|by eexists].
      destruct (sink _ _) as [s' [e|]]; by eexists.
    + intros e. simpl. rewrite Ht. by eexists.
Qed.

Lemma liveCount_zero ts :
  (forall i t, ts !! i = Some t -> t = TExited) -> liveCount ts = 0%Z.
Proof.
  unfold liveCount. induction ts as [|t ts IH]; intros H; [done|]. simpl.
  rewrite (H 0 t eq_refl). simpl. apply IH. intros i t' Hi.
  exact (H (S i) t' Hi).
Qed.

(** X10: a call of [Read] that waits can return exactly when every
    goroutine has exited. *)
Theorem Wait_returns_when_all_exited w c :
  reachable w -> callers w !! c = Some CWait ->
  (is_Some (step (LCaller c) w) <->
   forall i t, tasks w !! i = Some t -> t = TExited).
Proof.
  intros Hw Hc. pose proof (group_inv w Hw) as Hgi. unfold groupInv in Hgi.
  destruct (group (reader w)) as [g|] eqn:Hg.
  - simpl. rewrite Hc. simpl. rewrite Hg. split.
    + intros Hs i t Ht. destruct (wg g =? 0)%Z eqn:Hz;
        [|by destruct Hs]. apply Z.eqb_eq in Hz.
      by eapply all_exited.
    + intros Hall. rewrite Hgi, (liveCount_zero _ Hall). simpl. by eexists.
  - destruct Hgi as [_ Hcs]. by specialize (Hcs c _ Hc).
Qed.

(** *** When [Read] returns nil *)

Lemma stepTask_reading r s i n t inp o tok :
  stepTask r s i n t inp = Some o ->
  states (o_reader o) !! tok = Some partitionStateReading ->
  states r !! tok = Some partitionStateReading \/
  (owns (o_task o) tok = true \/ exists e, o_task o = TReturn (Some e)).
Proof.
  intros Hs Hrd. task_cases Hs; unfold markStateFinished in *; auto.
  - destruct (decide (tok0 = tok)) as [->|]; simplify_map_eq; auto.
    right. left. by apply bool_decide_eq_true.
  - destruct (decide (tok0 = tok)) as [->|]; simplify_map_eq; eauto.
  - destruct (decide (tok0 = tok)) as [->|]; simplify_map_eq; auto.
Qed.

Lemma stepTask_owner_next r s i n t inp o tok :
  stepTask r s i n t inp = Some o -> owns t tok = true ->
  states (o_reader o) !! tok = Some partitionStateReading ->
  owns (o_task o) tok = true \/ exists e, o_task o = TReturn (Some e).
Proof.
  intros Hs Ho Hrd. task_cases Hs; unfold markStateFinished in *; eauto.
  apply bool_decide_eq_true in Ho as ->. simplify_map_eq.
Qed.

(** A token that is [Reading] is held by a goroutine, or some goroutine has
    failed. *)
Lemma reading_inv w tok :
  reachable w -> states (reader w) !! tok = Some partitionStateReading ->
  (exists i t, tasks w !! i = Some t /\ owns t tok = true) \/
  (exists i e, failedWith w i e).
Proof.
  intros Hw. revert tok. revert Hw. reach_induction w; simpl in *.
  - intros tok. by rewrite Hfresh_states, lookup_empty.
  - done.
  - intros tok Hrd.
    destruct (stepCaller_states _ _ _ _ _ _ _ _ Hs) as (Heq & _).
    rewrite Heq in Hrd.
    destruct (IH tok Hrd) as [(j & tj & Hj & Ho)|(j & e & Hf)].
    + left. exists j, tj. split; [|done]. by apply lookup_app_l_Some.
    + right. exists j, e. eapply (failed_step (LCaller c)); [done|].
      simpl. by rewrite Hc, Hs.
  - intros tok Hrd.
    assert (forall j e, failedWith w j e ->
              failedWith {| reader := o_reader o;
                            tasks := <[i:=o_task o]> (tasks w) ++ o_spawn o;
                            callers := callers w; sinkState := o_sink o;
                            trace := trace w ++ o_events o |} j e) as Hfail.
    { intros j e Hf. eapply (failed_step (LTask i inp)); [done|].
      simpl. by rewrite Ht, Hs. }
    assert (forall e, o_task o = TReturn (Some e) ->
              failedWith {| reader := o_reader o;
                            tasks := <[i:=o_task o]> (tasks w) ++ o_spawn o;
                            callers := callers w; sinkState := o_sink o;
                            trace := trace w ++ o_events o |} i e) as Hnew.
    { intros e He. left. simpl. rewrite (lookup_pool_eq _ _ _ _ _ Ht).
      by rewrite He. }
    pose proof (lookup_pool_eq (tasks w) i t (o_task o) (o_spawn o) Ht) as Hi.
    destruct (stepTask_reading _ _ _ _ _ _ _ tok Hs Hrd)
      as [Hold|[Ho|[e He]]].
    + destruct (IH tok Hold) as [(j & tj & Hj & Ho)|(j & e & Hf)].
      * destruct (decide (j = i)) as [->|Hne].
        -- simplify_eq.
           destruct (stepTask_owner_next _ _ _ _ _ _ _ tok Hs Ho Hrd)
             as [Ho'|[e He]].
           ++ left. by exists i, (o_task o).
           ++ right. exists i, e. by apply Hnew.
        -- left. exists j, tj. split; [|done].
           apply lookup_app_l_Some. by rewrite list_lookup_insert_ne.
      * right. exists j, e. by apply Hfail.
    + left. by exists i, (o_task o).
    + right. exists i, e. by apply Hnew.
Qed.

Lemma errorsOf_elem tr i e :
  EvDone i (Some e) ∈ tr -> e ∈ errorsOf tr.
Proof.
  intros H. unfold errorsOf. apply list_elem_of_omap.
  by exists (EvDone i (Some e)).
Qed.

(** X11: when the call of [Read] that waits returns nil, every goroutine
    has exited, none has returned an error, and every token of the
    registry is [Finished]: each partition that was claimed has been read to
    its end. *)
Theorem Read_nil_means_all_finished w c w' :
  reachable w -> callers w !! c = Some CWait ->
  step (LCaller c) w = Some w' -> callers w' !! c = Some (CReturned None) ->
  (forall i t, tasks w' !! i = Some t -> t = TExited) /\
  (forall i e, EvDone i (Some e) ∉ trace w') /\
  (forall tok st, states (reader w') !! tok = Some st ->
                  st = partitionStateFinished).
Proof.
  intros Hw Hc Hs Hret.
  assert (c < length (callers w)) as Hlt by (by eapply lookup_lt_Some).
  simpl in Hs. rewrite Hc in Hs. simpl in Hs.
  destruct (group (reader w)) as [g|] eqn:Hg; [|done].
  destruct (wg g =? 0)%Z eqn:Hz; [|done]. apply Z.eqb_eq in Hz.
  injection Hs as <-. simpl in *.
  rewrite list_lookup_insert_eq in Hret by done. injection Hret as Hnil.
  pose proof (group_err_inv w Hw g Hg) as Herr. rewrite Hnil in Herr.
  assert (forall i t, tasks w !! i = Some t -> t = TExited) as Hall.
  { intros i t. by eapply all_exited. }
  assert (forall i e, EvDone i (Some e) ∉ trace w) as Hnone.
  { intros i e Hin. apply errorsOf_elem in Hin.
    destruct (errorsOf (trace w)); [by apply elem_of_nil in Hin|done]. }
  split_and!.
  - intros i t. rewrite app_nil_r. apply Hall.
  - intros i e Hin. apply elem_of_app in Hin as [Hin|Hin];
      [by eapply Hnone|]. by apply list_elem_of_singleton in Hin.
  - intros tok st Hst. destruct (entry_inv w tok st Hw Hst) as [Hnu _].
    destruct st; [done| |done]. exfalso.
    destruct (reading_inv w tok Hw Hst) as [(i & t & Hi & Ho)|(i & e & Hf)].
    + rewrite (Hall i t Hi) in Ho. done.
    + destruct Hf as [Hf|[_ Hd]]; [by specialize (Hall _ _ Hf)|].
      by eapply Hnone.
Qed.

(** *** One root *)

Lemma countCGo_app cs1 cs2 :
  countCGo (cs1 ++ cs2) = countCGo cs1 + countCGo cs2.
Proof. induction cs1 as [|[] cs1 IH]; simpl; lia. Qed.

Lemma countCGo_insert cs c cl cl' :
  cs !! c = Some cl ->
  countCGo (<[c := cl']> cs) + match cl with CGo => 1 | _ => 0 end
  = countCGo cs + match cl' with CGo => 1 | _ => 0 end.
Proof.
  revert c. induction cs as [|a cs IH]; intros [|c] H; simplify_eq/=.
  - destruct cl, cl'; lia.
  - specialize (IH c H). destruct a; simpl; lia.
Qed.

Lemma root_inv w :
  reachable w ->
  countCGo (callers w) + length (rootsOf (trace w)) <=
  match group (reader w) with Some _ => 1 | None => 0 end.
Proof.
  revert w. apply reachable_cases; simpl.
  - intros r s [_ ->]. done.
  - intros w Hw IH. rewrite countCGo_app. simpl. lia.
  - intros w c cl r' cl' spawn evs Hw IH Hc Hs.
    pose proof (countCGo_insert _ _ _ cl' Hc) as Hins.
    unfold rootsOf in *. rewrite omap_app, length_app.
    caller_cases Hs; simpl in *;
      repeat match goal with
             | H : group (reader _) = _ |- _ => rewrite H in *; clear H
             end; simpl in *; lia.
  - intros w i t inp o Hw IH Ht Hs.
    unfold rootsOf in *. rewrite omap_app, length_app.
    destruct (group_of_goroutine w i t Hw Ht) as (g & Hg & _).
    rewrite Hg in IH.
    task_cases Hs; simpl; rewrite ?Hg; simpl; lia.
Qed.

(** X12: however often and however interleaved [Read] is called on one
    reader, at most one root closure is ever started: two [group.Go] of
    [Read] in a run are the same one, by the same call. *)
Theorem Read_starts_one_root w c1 j1 c2 j2 :
  reachable w ->
  EvGoRoot c1 j1 ∈ trace w -> EvGoRoot c2 j2 ∈ trace w ->
  c1 = c2 /\ j1 = j2 /\ length (rootsOf (trace w)) <= 1 /\
  countCGo (callers w) = 0.
Proof.
  intros Hw H1 H2. pose proof (root_inv w Hw) as Hle.
  assert (forall c j, EvGoRoot c j ∈ trace w -> (c, j) ∈ rootsOf (trace w))
    as Hin.
  { intros c j H. unfold rootsOf. apply list_elem_of_omap.
    by exists (EvGoRoot c j). }
  apply Hin in H1, H2.
  destruct (group (reader w)); destruct (rootsOf (trace w)) as [|a [|b l]];
    simpl in Hle; try lia; try (by apply elem_of_nil in H1).
  apply list_elem_of_singleton in H1, H2. simplify_eq. split_and!; try done.
  lia.
Qed.

(** *** A dialect [startRead] does not know *)

Lemma buildStatement_other r tok start name :
  rdialect r = dialectOther name -> buildStatement r tok start = None.
Proof. unfold buildStatement. by intros ->. Qed.

Lemma unread_inv w name :
  reachable w -> rdialect (reader w) = dialectOther name ->
  (forall i t, tasks w !! i = Some t ->
     unreadPoint (errUnexpectedDialect (dialectOther name)) t) /\
  (forall ev, ev ∈ trace w ->
     ~ isReadEvent ev /\
     forall i e, ev = EvDone i (Some e) ->
                 e = errUnexpectedDialect (dialectOther name)) /\
  (forall tok st, states (reader w) !! tok = Some st ->
                  st = partitionStateReading).
Proof.
  intros Hw. revert name. revert Hw. reach_induction w; simpl in *.
  - intros name Hd. split_and!.
    + intros i t H. by rewrite lookup_nil in H.
    + intros ev H. by apply elem_of_nil in H.
    + intros tok st. by rewrite Hfresh_states, lookup_empty.
  - done.
  - intros name Hd.
    destruct (stepCaller_states _ _ _ _ _ _ _ _ Hs) as (Hst & Hdl & _).
    rewrite Hdl in Hd. destruct (IH name Hd) as (A & B & C). split_and!.
    + intros i t Hi. apply lookup_app_Some in Hi as [Hi|[_ Hi]];
        [by eapply A|].
      apply list_elem_of_lookup_2 in Hi.
      by rewrite (stepCaller_spawn _ _ _ _ _ _ _ _ _ Hs Hi).
    + intros ev Hev. apply elem_of_app in Hev as [Hev|Hev]; [by apply B|].
      caller_cases Hs; repeat (apply elem_of_cons in Hev as [->|Hev]);
        try (by apply elem_of_nil in Hev); simpl; (split; [tauto|done]).
    + by rewrite Hst.
  - intros name Hd.
    destruct (stepTask_fixed _ _ _ _ _ _ _ Hs) as [Hdl _].
    rewrite Hdl in Hd. destruct (IH name Hd) as (A & B & C).
    pose proof (A i t Ht) as Hpt. clear IH.
    assert (forall tok start,
              buildStatement
                (setStates (reader w)
                   (<[tok:=partitionStateReading]> (states (reader w))))
                tok start = None) as Hnone.
    { intros tok start. by eapply buildStatement_other. }
    split_and!.
    + intros j tj Hj.
      task_cases Hs; simpl in Hpt; try done; pool_cases Hj Ht;
        try (by eapply A); simpl; rewrite ?Hd; auto.
      all: by rewrite Hnone in *.
    + intros ev Hev. apply elem_of_app in Hev as [Hev|Hev]; [by apply B|].
      task_cases Hs; simpl in Hpt; try done;
        repeat (apply elem_of_cons in Hev as [->|Hev]);
        try (by apply elem_of_nil in Hev); simpl;
        try (by rewrite Hnone in *);
        (split; [tauto|]); intros ? ? ?; simplify_eq; try done.
      all: destruct Hpt as [?|?]; by simplify_eq.
    + intros tok' st Hst.
      task_cases Hs; simpl in Hpt; try done; try (by eapply C).
      all: destruct (decide (tok = tok')) as [->|]; simplify_map_eq;
        try done; by eapply C.
Qed.

(** X13: with a dialect that [startRead] does not know, a goroutine that
    claims its token returns "unexpected dialect" at once and leaves the
    token [Reading]; in the whole run no query is made, no row read, the
    sink is never called, no partition is finished and no child started,
    and the only error the group can hold, and so the only error [Read]
    can return from its wait, is that one. *)
Theorem unknown_dialect_reads_nothing w name :
  reachable w -> rdialect (reader w) = dialectOther name ->
  (forall ev, ev ∈ trace w -> ~ isReadEvent ev) /\
  (forall tok st, states (reader w) !! tok = Some st ->
                  st = partitionStateReading) /\
  (forall g e, group (reader w) = Some g -> gerr g = Some e ->
               e = ("unexpected dialect: " ++ name)%string) /\
  (forall i tok start,
     tasks w !! i = Some (TStart tok start) ->
     states (reader w) !! tok = None ->
     step (LTask i INone) w =
     Some {| reader :=
               setStates (reader w)
                 (<[tok := partitionStateReading]> (states (reader w)));
             tasks :=
               <[i := TReturn (Some ("unexpected dialect: " ++ name)%string)]>
                 (tasks w);
             callers := callers w; sinkState := sinkState w;
             trace := trace w ++ [EvClaim i tok true] |}).
Proof.
  intros Hw Hd. destruct (unread_inv w name Hw Hd) as (A & B & C).
  split_and!.
  - intros ev Hev. by destruct (B ev Hev).
  - done.
  - intros g e Hg He. pose proof (group_err_inv w Hw g Hg) as Herr.
    rewrite He in Herr.
    destruct (errorsOf (trace w)) as [|e' l] eqn:Hl; [done|].
    simpl in Herr. simplify_eq.
    assert (e' ∈ errorsOf (trace w)) as Hin by (rewrite Hl; by left).
    unfold errorsOf in Hin. apply list_elem_of_omap in Hin as (ev & Hev & Hf).
    destruct ev as [| | | | | | | |i [e''|]|]; simplify_eq/=.
    destruct (B _ Hev) as [_ Hb]. by rewrite (Hb i e' eq_refl).
  - intros i tok start Ht Hst. simpl. rewrite Ht. simpl.
    rewrite (markStateReading_absent _ _ Hst).
    rewrite buildStatement_other with (name := name) by done.
    rewrite Hd. by rewrite app_nil_r.
Qed.

(** *** The loops over the children *)

Lemma recordsOf_snoc calls c :
  recordsOf (calls ++ [c])
  = appendChildren (recordsOf calls) (ChangeRecords (c_res c)).
Proof.
  unfold recordsOf, appendChildren.
  rewrite map_app, concat_app, fold_left_app. simpl. by rewrite app_nil_r.
Qed.

Lemma proj_other_loop i tr :
  (forall ev, ev ∈ tr -> actor ev <> Some i) ->
  checkedOf i tr = [] /\ goPairsOf i tr = [].
Proof.
  intros H. split; apply omap_all_None; intros ev Hev;
    specialize (H ev Hev); destruct ev; simpl in *;
    try done; (rewrite decide_False by congruence); done.
Qed.

Lemma checkedOf_app i tr1 tr2 :
  checkedOf i (tr1 ++ tr2) = checkedOf i tr1 ++ checkedOf i tr2.
Proof. apply omap_app. Qed.

Lemma goPairsOf_app i tr1 tr2 :
  goPairsOf i (tr1 ++ tr2) = goPairsOf i tr1 ++ goPairsOf i tr2.
Proof. apply omap_app. Qed.

Lemma sinkCallsOf_cons i ev tr :
  sinkCallsOf i (ev :: tr) =
  match ev with
  | EvSink j row res ret =>
      if decide (j = i)
      then [{| c_row := row; c_res := res; c_ret := ret |}] else []
  | _ => []
  end ++ sinkCallsOf i tr.
Proof. destruct ev; try done. unfold sinkCallsOf. simpl. by case_decide. Qed.

Lemma checkedOf_cons i ev tr :
  checkedOf i (ev :: tr) =
  match ev with
  | EvCanRead j child _ => if decide (j = i) then [child] else []
  | _ => []
  end ++ checkedOf i tr.
Proof. destruct ev; try done. unfold checkedOf. simpl. by case_decide. Qed.

Lemma goPairsOf_cons i ev tr :
  goPairsOf i (ev :: tr) =
  match ev with
  | EvGo j _ child start => if decide (j = i) then [(start, child)] else []
  | _ => []
  end ++ goPairsOf i tr.
Proof. destruct ev; try done. unfold goPairsOf. simpl. by case_decide. Qed.

Lemma loop_inv w : reachable w -> loopInv w.
Proof.
  reach_induction w; unfold loopInv in *; simpl in *.
  - done.
  - done.
  - intros i. rewrite sinkCallsOf_app, checkedOf_app, goPairsOf_app.
    destruct (stepCaller_proj _ _ _ _ _ _ _ _ i Hs) as (_ & -> & _).
    destruct (proj_other_loop i evs) as [-> ->].
    { intros ev Hev. by erewrite stepCaller_events by done. }
    rewrite !app_nil_r.
    destruct (IH i) as [A B]. split; [done|].
    assert (EvDone i None ∈ trace w ++ evs -> EvDone i None ∈ trace w) as Hd.
    { intros Hin. apply elem_of_app in Hin as [Hin|Hin]; [done|].
      by pose proof (stepCaller_events _ _ _ _ _ _ _ _ _ Hs Hin). }
    destruct (decide (i < length (tasks w))) as [Hlt|Hge].
    + rewrite lookup_app_l by done.
      destruct (tasks w !! i) as [[| | | | | |[]|]|]; simpl in *; auto.
    + destruct ((tasks w ++ spawn) !! i) as [t|] eqn:Hi; [|done].
      apply lookup_app_Some in Hi as [Hi|[_ Hi]].
      * apply lookup_lt_Some in Hi. lia.
      * apply list_elem_of_lookup_2 in Hi.
        by rewrite (stepCaller_spawn _ _ _ _ _ _ _ _ _ Hs Hi).
  - intros j. destruct (IH j) as [A B].
    destruct (decide (j = i)) as [->|Hne].
    + rewrite (lookup_pool_eq _ _ _ _ _ Ht). rewrite Ht in B.
      assert (beforeRows t ->
              sinkCallsOf i (trace w) = [] /\ checkedOf i (trace w) = [] /\
              goPairsOf i (trace w) = []) as Hquiet.
      { intros Hb.
        assert (forall ev, ev ∈ trace w -> actor ev <> Some i) as Hq.
        { intros ev Hev. eapply quiet_before_claim; [done| |done].
          by rewrite Ht. }
        destruct (proj_other i (trace w) Hq) as (_ & ? & _).
        by destruct (proj_other_loop i (trace w) Hq). }
      assert (~ pastFinish t -> goPairsOf i (trace w) = []) as Hnogo.
      { intros Hnp. apply omap_all_None. intros ev Hev.
        destruct ev as [| | | | | |k j' child start| | |]; try done. simpl.
        case_decide; [|done]. subst k.
        destruct (trace_inv w Hw _ i Hev eq_refl) as (t' & Ht' & Hal).
        simplify_eq. done. }
      assert (EvDone i None ∈ trace w -> t = TExited) as Hdn.
      { intros Hin. destruct (trace_inv w Hw _ i Hin eq_refl)
          as (t' & Ht' & Hal). by simplify_eq. }
      clear IH. rewrite sinkCallsOf_app, checkedOf_app, goPairsOf_app.
      task_cases Hs;
        rewrite ?sinkCallsOf_cons, ?checkedOf_cons, ?goPairsOf_cons;
        simpl; rewrite ?decide_True by done; simpl;
        rewrite ?app_nil_r; try done.
      * destruct Hquiet as (Hq1 & Hq2 & Hq3); [done|].
        by rewrite Hq1, Hq2, Hq3.
      * destruct Hquiet as (Hq1 & Hq2 & Hq3); [done|].
        by rewrite Hq1, Hq2, Hq3.
      * rewrite Hnogo by tauto. done.
      * destruct B as [-> Hck]. rewrite Hnogo by tauto.
        split; [done|]. split; [|done]. by rewrite recordsOf_snoc.
      * destruct B as [-> Hck]. split; [done|]. exists []. by rewrite Hck.
      * destruct B as (visited & Hann & Hck). split; [done|].
        by rewrite Hann, app_nil_r.
      * destruct B as (visited & Hann & Hck). split; [done|].
        exists visited. by rewrite Hck.
      * destruct B as (visited & Hann & Hck). split; [done|].
        exists (visited ++ [(start, child)]). split.
        -- by rewrite <- app_assoc.
        -- by rewrite map_app, Hck.
      * destruct B as (visited & Hann & Hck). split.
        -- apply Forall_app. split; [done|]. constructor; [|done].
           rewrite Hann. apply elem_of_app. right. by left.
        -- exists (visited ++ [(start, child)]). split.
           ++ by rewrite <- app_assoc.
           ++ by rewrite map_app.
      * split; [done|]. intros Hin. destruct ret as [e|]; [|done].
        apply elem_of_app in Hin as [Hin|Hin]; [by specialize (Hdn Hin)|].
        by apply list_elem_of_singleton in Hin.
    + destruct (stepTask_other _ _ _ _ _ _ _ j Hs Hne) as (_ & Hsk & _).
      destruct (proj_other_loop j (o_events o)) as [Hck Hgo].
      { intros ev Hev.
        destruct (stepTask_events _ _ _ _ _ _ _ _ Hs Hev) as [-> _].
        congruence. }
      rewrite sinkCallsOf_app, checkedOf_app, goPairsOf_app.
      rewrite Hsk, Hck, Hgo, !app_nil_r. split; [done|].
      assert (EvDone j None ∈ trace w ++ o_events o ->
              EvDone j None ∈ trace w) as Hd.
      { intros Hin. apply elem_of_app in Hin as [Hin|Hin]; [done|].
        destruct (stepTask_events _ _ _ _ _ _ _ _ Hs Hin) as [Hact _].
        simpl in Hact. congruence. }
      destruct (lookup_pool_ne (tasks w) i (o_task o) (o_spawn o) j Hne)
        as [->|(_ & t' & Hin & ->)].
      * destruct (tasks w !! j) as [[| | | | | |[]|]|]; simpl in *; auto.
      * by destruct (stepTask_spawn _ _ _ _ _ _ _ _ Hs Hin) as (? & ? & ->).
Qed.

Lemma elem_of_childrenOf recs start child :
  (start, child) ∈ childrenOf recs <->
  exists rec, rec ∈ recs /\ child ∈ ChildPartitions rec /\
              start = StartTimestamp rec.
Proof.
  unfold childrenOf. setoid_rewrite list_elem_of_In. rewrite in_flat_map.
  split.
  - intros (rec & Hrec & Hin). apply in_map_iff in Hin as (c & Hc & Hin).
    exists rec. by simplify_eq.
  - intros (rec & Hrec & Hc & ->). exists rec. split; [done|].
    apply in_map_iff. by exists child.
Qed.

Lemma elem_of_recordsOf calls rec :
  rec ∈ recordsOf calls <->
  exists c cr, c ∈ calls /\ cr ∈ ChangeRecords (c_res c) /\
               rec ∈ ChildPartitionsRecords cr.
Proof.
  unfold recordsOf. rewrite appendChildren_concat. simpl.
  setoid_rewrite list_elem_of_In. rewrite in_concat. split.
  - intros (l & Hl & Hin). apply in_map_iff in Hl as (cr & <- & Hcr).
    apply in_concat in Hcr as (l' & Hl' & Hcr).
    apply in_map_iff in Hl' as (c & <- & Hc).
    by exists c, cr.
  - intros (c & cr & Hc & Hcr & Hrec). exists (ChildPartitionsRecords cr).
    split; [|done]. apply in_map_iff.
    exists cr. split; [done|]. apply in_concat.
    exists (ChangeRecords (c_res c)). split; [|done].
    apply in_map_iff. by exists c.
Qed.

Lemma sinkCallsOf_elem i tr c :
  c ∈ sinkCallsOf i tr -> EvSink i (c_row c) (c_res c) (c_ret c) ∈ tr.
Proof.
  unfold sinkCallsOf. rewrite list_elem_of_omap. intros (ev & Hev & Hf).
  destruct ev; simplify_eq/=. case_decide; by simplify_eq.
Qed.

Lemma goPairsOf_elem i tr j child start :
  EvGo i j child start ∈ tr -> (start, child) ∈ goPairsOf i tr.
Proof.
  intros H. unfold goPairsOf. apply list_elem_of_omap.
  exists (EvGo i j child start). split; [done|]. simpl.
  by rewrite decide_True.
Qed.

(** X14: a goroutine calls [group.Go] only for a child that a row of its
    own stream has announced, and starts it at the start timestamp of the
    announcement that lists it: the sink has been called with a result that
    holds a child announcement with that child and that timestamp. *)
Theorem Go_only_for_announced w i j child start :
  reachable w -> EvGo i j child start ∈ trace w ->
  exists row res ret cr rec,
    EvSink i row res ret ∈ trace w /\
    cr ∈ ChangeRecords res /\ rec ∈ ChildPartitionsRecords cr /\
    child ∈ ChildPartitions rec /\ start = StartTimestamp rec.
Proof.
  intros Hw Hgo. destruct (loop_inv w Hw i) as [A _].
  rewrite Forall_forall in A.
  specialize (A _ (goPairsOf_elem _ _ _ _ _ Hgo)).
  apply elem_of_childrenOf in A as (rec & Hrec & Hchild & Hstart).
  apply elem_of_recordsOf in Hrec as (c & cr & Hc & Hcr & Hrec).
  apply sinkCallsOf_elem in Hc.
  by exists (c_row c), (c_res c), (c_ret c), cr, rec.
Qed.

(** X15: when a goroutine signals [Done] with nil, it has put every child
    that the rows of its stream announced to [canReadChild], each once and
    in the order of the announcements; none is skipped. *)
Theorem clean_return_checks_all_children w pre post i :
  reachable w -> trace w = pre ++ EvDone i None :: post ->
  checkedOf i pre = map snd (announcedOf (sinkCallsOf i pre)) /\
  sinkCallsOf i (trace w) = sinkCallsOf i pre /\
  checkedOf i (trace w) = checkedOf i pre.
Proof.
  intros Hw Htr. destruct (loop_inv w Hw i) as [_ B].
  destruct (trace_inv w Hw (EvDone i None) i) as (t & Ht & Hal);
    [rewrite Htr; in_trace|done|].
  simpl in Hal. subst t. rewrite Ht in B. simpl in B.
  assert (forall ev, ev ∈ post -> actor ev <> Some i) as Hq.
  { intros ev Hev. by eapply after_done. }
  destruct (proj_other i post Hq) as (_ & Hs & _).
  destruct (proj_other_loop i post Hq) as [Hc _].
  assert (sinkCallsOf i (trace w) = sinkCallsOf i pre) as Hsk.
  { by rewrite Htr, sinkCallsOf_app, sinkCallsOf_cons, Hs, !app_nil_r. }
  assert (checkedOf i (trace w) = checkedOf i pre) as Hck.
  { by rewrite Htr, checkedOf_app, checkedOf_cons, Hc, !app_nil_r. }
  split_and!; [|done|done].
  rewrite <- Hsk, <- Hck. symmetry. apply B. rewrite Htr. in_trace.
Qed.

(** *** The token of a goroutine *)

Lemma stepTask_worksOn r s i n t inp o tok :
  stepTask r s i n t inp = Some o -> worksOn t tok -> worksOn (o_task o) tok.
Proof. intros Hs Hw. task_cases Hs; simpl in *; done. Qed.

Lemma stepTask_namesToken r s i n t inp o tok ev :
  stepTask r s i n t inp = Some o -> worksOn t tok -> ev ∈ o_events o ->
  namesToken tok ev.
Proof.
  intros Hs Hw Hev. task_cases Hs;
    repeat (apply elem_of_cons in Hev as [->|Hev]);
    try (by apply elem_of_nil in Hev); simpl in *; done.
Qed.

Lemma stepTask_started r s i n t inp o tr j tok :
  stepTask r s i n t inp = Some o ->
  startedFor (tr ++ o_events o) j tok ->
  startedFor tr j tok \/ (j = n /\ exists start, o_spawn o = [TStart tok start]).
Proof.
  intros Hs [[-> (c & Hin)]|(k & child & start & Hin & <-)];
    apply elem_of_app in Hin as [Hin|Hin].
  - left. left. eauto.
  - by destruct (stepTask_events _ _ _ _ _ _ _ _ Hs Hin).
  - left. right. eauto.
  - right. task_cases Hs; repeat (apply elem_of_cons in Hin as [Hin|Hin]);
      try (by apply elem_of_nil in Hin); simplify_eq. eauto.
Qed.

Lemma stepCaller_started r c n cl r' cl' spawn evs tr j tok :
  stepCaller r c n cl = Some (r', cl', spawn, evs) ->
  startedFor (tr ++ evs) j tok ->
  startedFor tr j tok \/ (j = n /\ tok = "" /\ spawn = [TRoot]).
Proof.
  intros Hs [[-> (c' & Hin)]|(k & child & start & Hin & <-)];
    apply elem_of_app in Hin as [Hin|Hin].
  - left. left. eauto.
  - right. caller_cases Hs; repeat (apply elem_of_cons in Hin as [Hin|Hin]);
      try (by apply elem_of_nil in Hin); by simplify_eq.
  - left. right. eauto.
  - by pose proof (stepCaller_events _ _ _ _ _ _ _ _ _ Hs Hin).
Qed.

Lemma start_inv w : reachable w -> startInv w.
Proof.
  reach_induction w; unfold startInv in *; simpl in *.
  - intros j tok [[_ (c & H)]|(k & child & start & H & _)];
      by apply elem_of_nil in H.
  - done.
  - intros j tok Hst.
    destruct (stepCaller_started _ _ _ _ _ _ _ _ _ _ _ Hs Hst)
      as [Hold|(-> & -> & ->)].
    + destruct (IH j tok Hold) as [(t & Ht & Hwo) Hev]. split.
      * exists t. split; [|done]. by apply lookup_app_l_Some.
      * intros ev Hin Hact. apply elem_of_app in Hin as [Hin|Hin];
          [by apply Hev|].
        by rewrite (stepCaller_events _ _ _ _ _ _ _ _ _ Hs Hin) in Hact.
    + split.
      * exists TRoot. split; [|done].
        rewrite lookup_app_r by done. by rewrite Nat.sub_diag.
      * intros ev Hin Hact. apply elem_of_app in Hin as [Hin|Hin].
        -- destruct (trace_inv w Hw ev _ Hin Hact) as (t & Ht & _).
           apply lookup_lt_Some in Ht. lia.
        -- by rewrite (stepCaller_events _ _ _ _ _ _ _ _ _ Hs Hin) in Hact.
  - intros j tok Hst.
    assert (i < length (tasks w)) as Hlt by (by eapply lookup_lt_Some).
    destruct (stepTask_started _ _ _ _ _ _ _ _ _ _ Hs Hst)
      as [Hold|(-> & start & Hsp)].
    + destruct (IH j tok Hold) as [(tj & Htj & Hwo) Hev].
      destruct (decide (j = i)) as [->|Hne].
      * simplify_eq. split.
        -- exists (o_task o). split; [by eapply lookup_pool_eq|].
           by eapply stepTask_worksOn.
        -- intros ev Hin Hact. apply elem_of_app in Hin as [Hin|Hin];
             [by apply Hev|]. by eapply stepTask_namesToken.
      * split.
        -- exists tj. split; [|done]. apply lookup_app_l_Some.
           by rewrite list_lookup_insert_ne.
        -- intros ev Hin Hact. apply elem_of_app in Hin as [Hin|Hin];
             [by apply Hev|].
           destruct (stepTask_events _ _ _ _ _ _ _ _ Hs Hin) as [Hact' _].
           congruence.
    + split.
      * exists (TStart tok start). split; [|done]. rewrite Hsp.
        rewrite lookup_app_r by (by rewrite length_insert).
        by rewrite length_insert, Nat.sub_diag.
      * intros ev Hin Hact. apply elem_of_app in Hin as [Hin|Hin].
        -- destruct (trace_inv w Hw ev _ Hin Hact) as (t' & Ht' & _).
           apply lookup_lt_Some in Ht'. lia.
        -- destruct (stepTask_events _ _ _ _ _ _ _ _ Hs Hin) as [Hact' _].
           simplify_eq. lia.
Qed.

(** X16: a goroutine works on the token it was started for and on no
    other: the closure that [Read] starts claims the empty token, a
    goroutine that a parent starts for a child claims the token of that
    child; what it claims, what it marks finished and the token of every
    result it hands to the sink is that token. *)
Theorem goroutine_keeps_its_token w j tok :
  reachable w -> startedFor (trace w) j tok ->
  (forall tok' b, EvClaim j tok' b ∈ trace w -> tok' = tok) /\
  (forall tok', EvFinished j tok' ∈ trace w -> tok' = tok) /\
  (forall row res ret,
     EvSink j row res ret ∈ trace w -> PartitionToken res = tok) /\
  (exists t, tasks w !! j = Some t /\ worksOn t tok).
Proof.
  intros Hw Hst. destruct (start_inv w Hw j tok Hst) as [Ht Hev].
  assert (forall tok' b, EvClaim j tok' b ∈ trace w -> tok' = tok) as Hcl.
  { intros tok' b Hin. exact (Hev _ Hin eq_refl). }
  split_and!; [done| | |done].
  - intros tok' Hin. exact (Hev _ Hin eq_refl).
  - intros row res ret Hin. eapply Hcl. by eapply sink_claim_inv.
Qed.

(** *** Queries *)

Lemma buildStatement_config r r' tok start :
  sameConfig r r' -> buildStatement r' tok start = buildStatement r tok start.
Proof.
  intros (H1 & H2 & H3 & H4 & H5). unfold buildStatement.
  by rewrite H1, H3, H4, H5.
Qed.

Lemma stepTask_config r s i n t inp o :
  stepTask r s i n t inp = Some o -> sameConfig r (o_reader o).
Proof. intros Hs. task_cases Hs; by repeat split. Qed.

Lemma stepCaller_config r c n cl r' cl' spawn evs :
  stepCaller r c n cl = Some (r', cl', spawn, evs) -> sameConfig r r'.
Proof. intros Hs. caller_cases Hs; by repeat split. Qed.

Lemma queriesOf_app i tr1 tr2 :
  queriesOf i (tr1 ++ tr2) = queriesOf i tr1 ++ queriesOf i tr2.
Proof. apply omap_app. Qed.

Lemma queriesOf_cons i ev tr :
  queriesOf i (ev :: tr) =
  match ev with
  | EvQuery j stmt => if decide (j = i) then [stmt] else []
  | _ => []
  end ++ queriesOf i tr.
Proof. destruct ev; try done. unfold queriesOf. simpl. by case_decide. Qed.

Lemma queriesOf_other i tr :
  (forall ev, ev ∈ tr -> actor ev <> Some i) -> queriesOf i tr = [].
Proof.
  intros H. apply omap_all_None. intros ev Hev. specialize (H ev Hev).
  destruct ev; simpl in *; try done. (rewrite decide_False by congruence).
  done.
Qed.

Lemma query_inv w : reachable w -> queryInv w.
Proof.
  reach_induction w; unfold queryInv in *; simpl in *.
  - intros i. split_and!; [simpl; lia|done|].
    intros stmt H. by apply elem_of_nil in H.
  - done.
  - intros i. rewrite queriesOf_app.
    rewrite (queriesOf_other i evs), app_nil_r
      by (intros ev Hev; by erewrite stepCaller_events by done).
    destruct (IH i) as (A & B & C). split_and!; [done| |].
    + destruct (decide (i < length (tasks w))) as [Hlt|Hge].
      * by rewrite lookup_app_l.
      * rewrite (proj2 (lookup_ge_None (tasks w) i)) in B by lia.
        by destruct ((tasks w ++ spawn) !! i) as [[]|].
    + intros stmt Hin. destruct (C stmt Hin) as (tok & start & Hcl & Hb).
      exists tok, start. split; [in_trace|].
      by rewrite (buildStatement_config _ _ _ _
                    (stepCaller_config _ _ _ _ _ _ _ _ Hs)).
  - intros j. rewrite queriesOf_app. destruct (IH j) as (A & B & C).
    pose proof (stepTask_config _ _ _ _ _ _ _ Hs) as Hcfg.
    assert (forall stmt, stmt ∈ queriesOf j (trace w) ->
              exists tok start,
                EvClaim j tok true ∈ trace w ++ o_events o /\
                buildStatement (o_reader o) tok start = Some stmt) as C'.
    { intros stmt Hin. destruct (C stmt Hin) as (tok & start & Hcl & Hb).
      exists tok, start. split; [in_trace|].
      by rewrite (buildStatement_config _ _ _ _ Hcfg). }
    destruct (decide (j = i)) as [->|Hne].
    + rewrite (lookup_pool_eq _ _ _ _ _ Ht). rewrite Ht in B. clear IH C.
      task_cases Hs; rewrite ?queriesOf_cons; simpl;
        rewrite ?decide_True by done; simpl; rewrite ?app_nil_r in *;
        try (split_and!; done).
      rewrite B. simpl. split_and!; [lia|done|].
      intros stmt Hin. apply list_elem_of_singleton in Hin as ->.
      exists tok, start. split; [in_trace|done].
    + rewrite (queriesOf_other j (o_events o)), app_nil_r.
      2:{ intros ev Hev.
          destruct (stepTask_events _ _ _ _ _ _ _ _ Hs Hev) as [-> _].
          congruence. }
      split_and!; [done| |done].
      destruct (lookup_pool_ne (tasks w) i (o_task o) (o_spawn o) j Hne)
        as [->|(Hnone & t' & Hin & ->)]; [done|].
      rewrite Hnone in B.
      by destruct (stepTask_spawn _ _ _ _ _ _ _ _ Hs Hin) as (? & ? & ->).
Qed.

(** X17: a goroutine makes at most one query, after its claim and for the
    token it has claimed: the statement is the one [buildStatement] gives
    for that token and some start timestamp under the configuration of the
    reader, which no step changes. *)
Theorem one_query_per_goroutine w i stmt :
  reachable w -> EvQuery i stmt ∈ trace w ->
  queriesOf i (trace w) = [stmt] /\
  exists tok start,
    EvClaim i tok true ∈ trace w /\
    buildStatement (reader w) tok start = Some stmt.
Proof.
  intros Hw Hev. destruct (query_inv w Hw i) as (A & _ & C).
  assert (stmt ∈ queriesOf i (trace w)) as Hin.
  { unfold queriesOf. apply list_elem_of_omap. exists (EvQuery i stmt).
    split; [done|]. simpl. by rewrite decide_True. }
  split; [|by apply C].
  destruct (queriesOf i (trace w)) as [|a [|b l]];
    [by apply elem_of_nil in Hin| |simpl in A; lia].
  by apply list_elem_of_singleton in Hin as ->.
Qed.

(** *** From the check to the new goroutine *)

(** X18: a goroutine in the loops over the children that finds the parents
    of the next child finished starts a goroutine for it in its next two
    steps: the counter of the group goes up by one, the pool gets one
    goroutine at the entry of [startRead] with the token of the child and
    the start timestamp of its announcement, and the parent moves on to the
    rest of the children. *)
Theorem eligible_child_is_started w i tok start child todo :
  reachable w ->
  tasks w !! i = Some (TLoop tok ((start, child) :: todo)) ->
  canReadChild (states (reader w)) child = true ->
  exists g w2,
    group (reader w) = Some g /\
    exec [LTask i INone; LTask i INone] w = Some w2 /\
    reader w2 = setGroup (reader w) (Some (groupAdd g)) /\
    tasks w2 = <[i := TLoop tok todo]> (tasks w)
               ++ [TStart (Token child) start] /\
    trace w2 = trace w ++ [EvCanRead i child true;
                           EvGo i (length (tasks w)) child start].
Proof.
  intros Hw Ht Hc.
  destruct (group_of_goroutine w i _ Hw Ht) as (g & Hg & _).
  assert (i < length (tasks w)) as Hlt by (by eapply lookup_lt_Some).
  exists g. eexists. split; [done|]. split.
  { simpl. rewrite Ht. simpl. rewrite Hc. simpl.
    rewrite app_nil_r, list_lookup_insert_eq by done. simpl.
    rewrite Hg. reflexivity. }
  simpl. split; [done|]. split.
  - by rewrite list_insert_insert_eq.
  - by rewrite length_insert, <- app_assoc.
Qed.
End MoreProperties.

(** ** The further results on the example runs *)

Lemma diamond_reachable : @reachable Demo.world (Demo.after Demo.diamondRun).
Proof. apply (demo_reachable Demo.diamondRun). vm_compute. reflexivity. Qed.

Lemma other_reachable : @reachable Demo.world Demo2.afterOther.
Proof.
  apply (reachable_exec Demo2.otherRun (@initWorld Demo.world Demo2.rdOther 0)).
  - by apply reach_init.
  - vm_compute. reflexivity.
Qed.

(** [NewReader] gives the reader of the examples. *)
Lemma NewReader_defaults_witness :
  NewReader (Ok tt) (Ok dialectGoogleSQL) "Stream" = Ok Demo.rd /\
  buildStatement Demo.rd "" 5%Z = Some (Demo2.stmtFor "" 5%Z) /\
  heartbeatInterval Demo.rd = (10 * Second)%Z /\
  Params (Demo2.stmtFor "" 5%Z) !! "end_timestamp" = Some PNil.
Proof.
  assert (NewReader (Ok tt) (Ok dialectGoogleSQL) "Stream" = Ok Demo.rd)
    as Hn by (vm_compute; reflexivity).
  assert (buildStatement Demo.rd "" 5%Z = Some (Demo2.stmtFor "" 5%Z))
    as Hb by (vm_compute; reflexivity).
  split; [exact Hn|]. split; [exact Hb|].
  destruct (@NewReader_defaults Demo.world _ _ _ _ _ _ _ Hn Hb)
    as (_ & _ & _ & Hhb & _ & _ & Hp).
  split; [exact Hhb|]. exact (proj1 Hp).
Defined.

(** The statement of the root has a NULL partition token. *)
Lemma buildStatement_GoogleSQL_witness :
  rdialect Demo.rd = dialectGoogleSQL /\
  exists stmt,
    buildStatement Demo.rd "" 5%Z = Some stmt /\
    Params stmt !! "partition_token" = Some PNil.
Proof.
  split; [reflexivity|].
  destruct (buildStatement_GoogleSQL Demo.rd "" 5%Z eq_refl)
    as (stmt & Hb & _ & Hp).
  exists stmt. split; [exact Hb|]. rewrite Hp. vm_compute. reflexivity.
Defined.

(** The statement of a child has its token as [p3]. *)
Lemma buildStatement_PostgreSQL_witness :
  rdialect Demo2.rdPG = dialectPostgreSQL /\
  exists stmt,
    buildStatement Demo2.rdPG "a" 7%Z = Some stmt /\
    Params stmt !! "p3" = Some (PString "a").
Proof.
  split; [reflexivity|].
  destruct (buildStatement_PostgreSQL Demo2.rdPG "a" 7%Z eq_refl)
    as (stmt & Hb & _ & Hp).
  exists stmt. split; [exact Hb|]. rewrite Hp. vm_compute. reflexivity.
Defined.

(** [g] is eligible when [b] checks it, and still when [b] has started
    it. *)
Lemma canReadChild_stays_true_witness :
  canReadChild (states (reader (Demo.after Demo.diamondRun))) Demo.childG
  = true /\
  exec [LTask 2 INone] (Demo.after Demo.diamondRun)
  = Some (Demo.after (Demo.diamondRun ++ [LTask 2 INone])) /\
  canReadChild
    (states (reader (Demo.after (Demo.diamondRun ++ [LTask 2 INone]))))
    Demo.childG = true.
Proof.
  assert (canReadChild (states (reader (Demo.after Demo.diamondRun)))
            Demo.childG = true) as Hc by (vm_compute; reflexivity).
  assert (exec [LTask 2 INone] (Demo.after Demo.diamondRun)
          = Some (Demo.after (Demo.diamondRun ++ [LTask 2 INone]))) as Hex
    by (vm_compute; reflexivity).
  split; [exact Hc|]. split; [exact Hex|].
  exact (canReadChild_stays_true _ _ _ _ Hc Hex).
Defined.

(** In the race for [g] the registry never holds [Unknown] for it. *)
Lemma registry_entries_are_claims_witness :
  @reachable Demo.world (Demo.after Demo.raceRun) /\
  states (reader (Demo.after Demo.raceRun)) !! "g"
  <> Some partitionStateUnknown.
Proof.
  assert (@reachable Demo.world (Demo.after Demo.raceRun)) as H.
  { apply (demo_reachable Demo.raceRun). vm_compute. reflexivity. }
  split; [exact H|].
  exact (proj1 (proj2 (registry_entries_are_claims _ "g" H))).
Defined.

(** The heartbeat of the root has reached the sink under the token of the
    root. *)
Lemma sink_results_witness :
  @reachable Demo.world (Demo.after Demo.diamondRun) /\
  @EvSink Demo.world 0 (Demo.heartbeat 6%Z) Demo2.heartbeatResult None
  ∈ trace (Demo.after Demo.diamondRun) /\
  @EvClaim Demo.world 0 (PartitionToken Demo2.heartbeatResult) true
  ∈ trace (Demo.after Demo.diamondRun).
Proof.
  assert (@EvSink Demo.world 0 (Demo.heartbeat 6%Z) Demo2.heartbeatResult None
          ∈ trace (Demo.after Demo.diamondRun)) as Hin.
  { vm_compute. repeat constructor. }
  split; [exact diamond_reachable|]. split; [exact Hin|].
  exact (proj1 (sink_results _ _ _ _ _ diamond_reachable Hin)).
Defined.

(** [a] is in its loop and can go on. *)
Lemma goroutine_never_stuck_witness :
  @reachable Demo.world (Demo.after Demo.diamondRun) /\
  tasks (Demo.after Demo.diamondRun) !! 1 = Some (TLoop "a" []) /\
  is_Some (step (LTask 1 INone) (Demo.after Demo.diamondRun)).
Proof.
  assert (tasks (Demo.after Demo.diamondRun) !! 1 = Some (TLoop "a" []))
    as Ht by (vm_compute; reflexivity).
  split; [exact diamond_reachable|]. split; [exact Ht|].
  exact (proj1 (goroutine_never_stuck _ 1 _ diamond_reachable Ht eq_refl)).
Defined.

(** When the diamond is read to its end the call of [Read] can return. *)
Lemma Wait_returns_when_all_exited_witness :
  @reachable Demo.world (Demo.after Demo2.doneRun) /\
  callers (Demo.after Demo2.doneRun) !! 0 = Some CWait /\
  (is_Some (step (LCaller 0) (Demo.after Demo2.doneRun)) <->
   forall i t, tasks (Demo.after Demo2.doneRun) !! i = Some t -> t = TExited).
Proof.
  assert (@reachable Demo.world (Demo.after Demo2.doneRun)) as H.
  { apply (demo_reachable Demo2.doneRun). vm_compute. reflexivity. }
  assert (callers (Demo.after Demo2.doneRun) !! 0 = Some CWait) as Hc
    by (vm_compute; reflexivity).
  split; [exact H|]. split; [exact Hc|].
  exact (Wait_returns_when_all_exited _ 0 H Hc).
Defined.

(** The diamond read to its end: [Read] returns nil and every goroutine has
    exited. *)
Lemma Read_nil_means_all_finished_witness :
  @reachable Demo.world (Demo.after Demo2.doneRun) /\
  callers (Demo.after Demo2.doneRun) !! 0 = Some CWait /\
  step (LCaller 0) (Demo.after Demo2.doneRun)
  = Some (Demo.after (Demo2.doneRun ++ [LCaller 0])) /\
  callers (Demo.after (Demo2.doneRun ++ [LCaller 0])) !! 0
  = Some (CReturned None) /\
  forall tok st,
    states (reader (Demo.after (Demo2.doneRun ++ [LCaller 0]))) !! tok
    = Some st -> st = partitionStateFinished.
Proof.
  assert (@reachable Demo.world (Demo.after Demo2.doneRun)) as H.
  { apply (demo_reachable Demo2.doneRun). vm_compute. reflexivity. }
  assert (callers (Demo.after Demo2.doneRun) !! 0 = Some CWait) as Hc
    by (vm_compute; reflexivity).
  assert (step (LCaller 0) (Demo.after Demo2.doneRun)
          = Some (Demo.after (Demo2.doneRun ++ [LCaller 0]))) as Hs
    by (vm_compute; reflexivity).
  assert (callers (Demo.after (Demo2.doneRun ++ [LCaller 0])) !! 0
          = Some (CReturned None)) as Hr by (vm_compute; reflexivity).
  split; [exact H|]. split; [exact Hc|]. split; [exact Hs|].
  split; [exact Hr|].
  exact (proj2 (proj2 (Read_nil_means_all_finished _ 0 _ H Hc Hs Hr))).
Defined.

(** The one root of the diamond. *)
Lemma Read_starts_one_root_witness :
  @reachable Demo.world (Demo.after Demo.diamondRun) /\
  @EvGoRoot Demo.world 0 0 ∈ trace (Demo.after Demo.diamondRun) /\
  length (rootsOf (trace (Demo.after Demo.diamondRun))) <= 1.
Proof.
  assert (@EvGoRoot Demo.world 0 0 ∈ trace (Demo.after Demo.diamondRun))
    as Hin.
  { vm_compute. repeat constructor. }
  split; [exact diamond_reachable|]. split; [exact Hin|].
  destruct (Read_starts_one_root _ 0 0 0 0 diamond_reachable Hin Hin)
    as (_ & _ & Hlen & _).
  exact Hlen.
Defined.

(** The reader with the dialect "MYSQL" reads nothing. *)
Lemma unknown_dialect_reads_nothing_witness :
  @reachable Demo.world Demo2.afterOther /\
  rdialect (reader Demo2.afterOther) = dialectOther "MYSQL" /\
  forall ev, ev ∈ trace Demo2.afterOther -> ~ isReadEvent ev.
Proof.
  assert (rdialect (reader Demo2.afterOther) = dialectOther "MYSQL") as Hd
    by (vm_compute; reflexivity).
  split; [exact other_reachable|]. split; [exact Hd|].
  exact (proj1 (unknown_dialect_reads_nothing _ _ other_reachable Hd)).
Defined.

(** The root has started [a], which its second row announced. *)
Lemma Go_only_for_announced_witness :
  @reachable Demo.world (Demo.after Demo.diamondRun) /\
  @EvGo Demo.world 0 1 Demo.childA 7%Z ∈ trace (Demo.after Demo.diamondRun) /\
  exists row res ret cr rec,
    @EvSink Demo.world 0 row res ret ∈ trace (Demo.after Demo.diamondRun) /\
    cr ∈ ChangeRecords res /\ rec ∈ ChildPartitionsRecords cr /\
    Demo.childA ∈ ChildPartitions rec /\ 7%Z = StartTimestamp rec.
Proof.
  assert (@EvGo Demo.world 0 1 Demo.childA 7%Z
          ∈ trace (Demo.after Demo.diamondRun)) as Hin.
  { vm_compute. repeat constructor. }
  split; [exact diamond_reachable|]. split; [exact Hin|].
  exact (Go_only_for_announced _ _ _ _ _ diamond_reachable Hin).
Defined.

(** The root has returned nil: it has checked [a] and [b]. *)
Lemma clean_return_checks_all_children_witness :
  @reachable Demo.world (Demo.after Demo.diamondRun) /\
  trace (Demo.after Demo.diamondRun)
  = take 12 (trace (Demo.after Demo.diamondRun)) ++
    EvDone 0 None :: drop 13 (trace (Demo.after Demo.diamondRun)) /\
  checkedOf 0 (take 12 (trace (Demo.after Demo.diamondRun)))
  = map snd (announcedOf
               (sinkCallsOf 0 (take 12 (trace (Demo.after Demo.diamondRun))))).
Proof.
  assert (trace (Demo.after Demo.diamondRun)
          = take 12 (trace (Demo.after Demo.diamondRun)) ++
            EvDone 0 None :: drop 13 (trace (Demo.after Demo.diamondRun)))
    as Htr by (vm_compute; reflexivity).
  split; [exact diamond_reachable|]. split; [exact Htr|].
  exact (proj1 (clean_return_checks_all_children _ _ _ _
                  diamond_reachable Htr)).
Defined.

(** The goroutine started for [a] claims [a]. *)
Lemma goroutine_keeps_its_token_witness :
  @reachable Demo.world (Demo.after Demo.diamondRun) /\
  startedFor (trace (Demo.after Demo.diamondRun)) 1 "a" /\
  forall tok' b,
    EvClaim 1 tok' b ∈ trace (Demo.after Demo.diamondRun) -> tok' = "a".
Proof.
  assert (startedFor (trace (Demo.after Demo.diamondRun)) 1 "a") as Hst.
  { right. exists 0, Demo.childA, 7%Z. split; [|reflexivity].
    vm_compute. repeat constructor. }
  split; [exact diamond_reachable|]. split; [exact Hst|].
  exact (proj1 (goroutine_keeps_its_token _ _ _ diamond_reachable Hst)).
Defined.

(** The query of the goroutine of [a]. *)
Lemma one_query_per_goroutine_witness :
  @reachable Demo.world (Demo.after Demo.diamondRun) /\
  @EvQuery Demo.world 1 (Demo2.stmtFor "a" 7%Z)
  ∈ trace (Demo.after Demo.diamondRun) /\
  queriesOf 1 (trace (Demo.after Demo.diamondRun))
  = [Demo2.stmtFor "a" 7%Z].
Proof.
  assert (@EvQuery Demo.world 1 (Demo2.stmtFor "a" 7%Z)
          ∈ trace (Demo.after Demo.diamondRun)) as Hin.
  { vm_compute. repeat constructor. }
  split; [exact diamond_reachable|]. split; [exact Hin|].
  exact (proj1 (one_query_per_goroutine _ _ _ diamond_reachable Hin)).
Defined.

(** The finished root starts [a]. *)
Lemma eligible_child_is_started_witness :
  @reachable Demo.world (Demo.after Demo2.finishedRun) /\
  tasks (Demo.after Demo2.finishedRun) !! 0
  = Some (TLoop "" [(7%Z, Demo.childA); (7%Z, Demo.childB)]) /\
  canReadChild (states (reader (Demo.after Demo2.finishedRun))) Demo.childA
  = true /\
  exists g w2,
    group (reader (Demo.after Demo2.finishedRun)) = Some g /\
    exec [LTask 0 INone; LTask 0 INone] (Demo.after Demo2.finishedRun)
    = Some w2 /\
    tasks w2 = <[0 := TLoop "" [(7%Z, Demo.childB)]]>
                 (tasks (Demo.after Demo2.finishedRun))
               ++ [TStart "a" 7%Z].
Proof.
  assert (@reachable Demo.world (Demo.after Demo2.finishedRun)) as H.
  { apply (demo_reachable Demo2.finishedRun). vm_compute. reflexivity. }
  assert (tasks (Demo.after Demo2.finishedRun) !! 0
          = Some (TLoop "" [(7%Z, Demo.childA); (7%Z, Demo.childB)])) as Ht
    by (vm_compute; reflexivity).
  assert (canReadChild (states (reader (Demo.after Demo2.finishedRun)))
            Demo.childA = true) as Hc by (vm_compute; reflexivity).
  split; [exact H|]. split; [exact Ht|]. split; [exact Hc|].
  destruct (eligible_child_is_started _ 0 "" 7%Z Demo.childA
              [(7%Z, Demo.childB)] H Ht Hc)
    as (g & w2 & Hg & Hex & _ & Htasks & _).
  exists g, w2. split; [exact Hg|]. split; [exact Hex|exact Htasks].
Defined.
